(** * Orphaned Steam game directories: a shallow embedding

    Embedding of [detect_non_installed_folders_in_steam_common.py].

    Conventions of the embedding.
    - A Python [str] is a Rocq [string]; a character is a code point below
      256, so that comparison of strings by code point is [String.leb] and
      [str.lower], [str.strip] are the tables of Python restricted to that
      range.
    - A Python [set] is a [gset]; the installed set holds what
      [get_manifest_install_directory] returns, a [str] or [None], hence
      its elements are [option string].
    - A Python [dict] is the list of its items in insertion order.
    - The logger and the exceptions are threaded through a small monad
      [M]: a computation takes the records logged so far and gives an
      outcome (a value or a raised exception) with the records logged.
    - The file system is a record of the four primitives the program
      calls: [open]+[readlines], [glob], [isfile], [isdir].
    - [os.path] is [posixpath]. *)

From Stdlib Require Import Ascii String NArith Lia.
From stdpp Require Import base list strings gmap sorting.

(** ** Characters and strings of Python *)

Module Py.

Definition dq : ascii := "034"%char.
Definition nl : ascii := "010"%char.
Definition slash : ascii := "/"%char.

Definition str1 (c : ascii) : string := String c EmptyString.

(** [str.isspace] on one character (code points 9-13, 28-32, 133, 160). *)
Definition is_space (c : ascii) : bool :=
  let n := N_of_ascii c in
  ((9 <=? n) && (n <=? 13) || (28 <=? n) && (n <=? 32)
   || (n =? 133) || (n =? 160))%N.

Fixpoint lstrip (s : string) : string :=
  match s with
  | EmptyString => EmptyString
  | String c t => if is_space c then lstrip t else s
  end.

Fixpoint rstrip (s : string) : string :=
  match s with
  | EmptyString => EmptyString
  | String c t =>
      match rstrip t with
      | EmptyString => if is_space c then EmptyString else str1 c
      | t' => String c t'
      end
  end.

(** [s.strip()] *)
Definition strip (s : string) : string := rstrip (lstrip s).

(** [sub in s] *)
Fixpoint contains (sub s : string) : bool :=
  String.prefix sub s ||
  match s with
  | EmptyString => false
  | String _ t => contains sub t
  end.

(** The scan of [s.replace(old, new)] for a non-empty [old]: [skip] counts
    the characters of a replaced occurrence still to be passed over. *)
Fixpoint replace_scan (old new : string) (skip : nat) (s : string) : string :=
  match s with
  | EmptyString => EmptyString
  | String c t =>
      match skip with
      | S k => replace_scan old new k t
      | O =>
          if String.prefix old s
          then new +:+ replace_scan old new (String.length old - 1) t
          else String c (replace_scan old new 0 t)
      end
  end.

Fixpoint intersperse_after (new s : string) : string :=
  match s with
  | EmptyString => EmptyString
  | String c t => String c (new +:+ intersperse_after new t)
  end.

(** [s.replace(old, new)] *)
Definition replace (old new s : string) : string :=
  match old with
  | EmptyString => new +:+ intersperse_after new s
  | String _ _ => replace_scan old new 0 s
  end.

(** [str.lower] on one character: A-Z and the capital letters of the
    Latin-1 block move up by 32. *)
Definition lower_char (c : ascii) : ascii :=
  let n := N_of_ascii c in
  if ((65 <=? n) && (n <=? 90) || (192 <=? n) && (n <=? 214)
      || (216 <=? n) && (n <=? 222))%N
  then ascii_of_N (n + 32) else c.

(** [s.lower()] *)
Fixpoint lower (s : string) : string :=
  match s with
  | EmptyString => EmptyString
  | String c t => String (lower_char c) (lower t)
  end.

(** [posixpath.basename]: what follows the last slash; [cur] is what
    follows the last slash met so far. *)
Fixpoint basename_from (cur p : string) : string :=
  match p with
  | EmptyString => cur
  | String c t =>
      if Ascii.eqb c slash then basename_from t t else basename_from cur t
  end.

Definition basename (p : string) : string := basename_from p p.

Fixpoint ends_with_slash (a : string) : bool :=
  match a with
  | EmptyString => false
  | String c EmptyString => Ascii.eqb c slash
  | String _ t => ends_with_slash t
  end.

(** [posixpath.join] of two components. *)
Definition join_path (a b : string) : string :=
  match b with
  | String c _ =>
      if Ascii.eqb c slash then b
      else match a with
           | EmptyString => b
           | _ => if ends_with_slash a then a +:+ b else a +:+ String slash b
           end
  | EmptyString =>
      match a with
      | EmptyString => b
      | _ => if ends_with_slash a then a else a +:+ str1 slash
      end
  end.

(** [file.readlines()] on the text of the file: every line keeps its
    newline, the last line may lack one. *)
Fixpoint readlines (text : string) : list string :=
  match text with
  | EmptyString => []
  | String c t =>
      if Ascii.eqb c nl then str1 c :: readlines t
      else match readlines t with
           | [] => [str1 c]
           | l :: ls => String c l :: ls
           end
  end.

(** [sorted] on a list of [str]: ascending for the comparison of strings
    by code point. *)
Definition sorted (l : list string) : list string := merge_sort String.le l.

End Py.

(** ** The regular expression of [MANIFEST_INSTALL_REGEX]

    A look-behind for a double quote, then [.+], then a look-ahead for a
    double quote. *)

Module Regex.
Import Py.

(** [.+] and the look-ahead tried at the head of [s]: the length of the longest run of
    one or more characters other than a newline that is followed by a
    double quote. The match is greedy: a longer run is preferred, and a
    run of one character is the last resort. *)
Fixpoint greedy_dot_plus (s : string) : option nat :=
  match s with
  | EmptyString => None
  | String c t =>
      if Ascii.eqb c nl then None
      else match greedy_dot_plus t with
           | Some n => Some (S n)
           | None =>
               match t with
               | String d _ => if Ascii.eqb d dq then Some 1 else None
               | EmptyString => None
               end
           end
  end.

Definition is_dq (prev : option ascii) : bool :=
  match prev with
  | Some p => Ascii.eqb p dq
  | None => false
  end.

(** The scan of [re.findall]: [prev] is the character before the current
    position (for the look-behind), [skip] the number of characters of the
    last match still to be passed over; the search resumes where the last
    match ended. *)
Fixpoint findall_scan (skip : nat) (prev : option ascii) (s : string)
  : list string :=
  match s with
  | EmptyString => []
  | String c t =>
      match skip with
      | S k => findall_scan k (Some c) t
      | O =>
          if is_dq prev then
            match greedy_dot_plus s with
            | Some n => substring 0 n s :: findall_scan (n - 1) (Some c) t
            | None => findall_scan 0 (Some c) t
            end
          else findall_scan 0 (Some c) t
      end
  end.

(** [re.findall(MANIFEST_INSTALL_REGEX, s)] *)
Definition findall (s : string) : list string := findall_scan 0 None s.

End Regex.

(** ** Logging, exceptions and the file system *)

Module Effects.

Inductive level := INFO | ERROR.

(** One call of [active_logger.info] or [active_logger.error]. *)
Definition record : Type := level * string.

Inductive exn :=
  | OSError (filename : string)
  | UnicodeDecodeError (filename : string)
  | IndexError.

Inductive outcome (A : Type) :=
  | Return (a : A)
  | Raise (e : exn).
Arguments Return {A} a.
Arguments Raise {A} e.

(** A computation: from the records logged so far to an outcome and the
    records logged when it ends. *)
Definition M (A : Type) : Type := list record -> outcome A * list record.

Definition ret {A} (a : A) : M A := fun log => (Return a, log).

Definition bind {A B} (m : M A) (k : A -> M B) : M B :=
  fun log =>
    match m log with
    | (Return a, log') => k a log'
    | (Raise e, log') => (Raise e, log')
    end.

Definition raise {A} (e : exn) : M A := fun log => (Raise e, log).

Definition log_info (msg : string) : M unit :=
  fun log => (Return tt, log ++ [(INFO, msg)]).

Definition log_error (msg : string) : M unit :=
  fun log => (Return tt, log ++ [(ERROR, msg)]).

(** [for x in xs: body(x)] *)
Fixpoint for_each {A} (xs : list A) (body : A -> M unit) : M unit :=
  match xs with
  | [] => ret tt
  | x :: rest => bind (body x) (fun _ => for_each rest body)
  end.

(** [map(f, xs)] consumed from left to right: the first exception stops
    the iteration. *)
Fixpoint map_m {A B} (f : A -> M B) (xs : list A) : M (list B) :=
  match xs with
  | [] => ret []
  | x :: rest =>
      bind (f x) (fun y => bind (map_m f rest) (fun ys => ret (y :: ys)))
  end.

(** What the program sees of the file system. [fs_read] is [open] followed
    by [readlines] up to the split into lines: the decoded text of the
    file, or the exception raised. *)
Record filesystem := {
  fs_read : string -> exn + string;
  fs_glob : string -> list string;
  fs_isfile : string -> bool;
  fs_isdir : string -> bool
}.

Definition open_readlines (fs : filesystem) (path : string)
  : M (list string) :=
  match fs_read fs path with
  | inl e => raise e
  | inr text => ret (Py.readlines text)
  end.

End Effects.

Declare Scope py_scope.
Delimit Scope py_scope with py.
Notation "x <- m ;; k" := (Effects.bind m (fun x => k))
  (at level 20, m at level 99, k at level 200, only parsing) : py_scope.
Notation "m ;; k" := (Effects.bind m (fun _ => k))
  (at level 100, k at level 200, right associativity, only parsing) : py_scope.

(** ** The program *)

Module Steam.
Import Py Regex Effects.
Local Open Scope py_scope.

Definition STEAM_COMMON_FOLDER : string := "common".
Definition STEAM_MANIFEST_EXTENSION : string := "acf".
Definition STEAM_FOLDER_IGNORE_LIST : gset string :=
  {[ lower "Steam Controller Configs" ]}.
Definition STEAM_MANIFEST_INSTALL_DIR_KEY : string :=
  String dq ("installdir" +:+ str1 dq).

(** A Python [dict] from [str] to [str]: its items in insertion order. *)
Abbreviation dict := (list (string * string)).

(** [d[k] = v]: the value of a key already present is replaced where it
    stands, a new key goes last. *)
Fixpoint dict_set (k v : string) (d : dict) : dict :=
  match d with
  | [] => [(k, v)]
  | (k', v') :: rest =>
      if String.eqb k' k then (k, v) :: rest else (k', v') :: dict_set k v rest
  end.

(** The rendering of a [str] or [None] inside an f-string. *)
Definition fmt (v : option string) : string :=
  match v with
  | Some s => s
  | None => "None"
  end.

(** [found[0]] *)
Definition index0 (found : list string) : M string :=
  match found with
  | v :: _ => ret v
  | [] => raise IndexError
  end.

(** The [for line in lines] loop of [get_manifest_install_directory]; its
    value is [install_dir] when the loop is left. *)
Fixpoint scan_lines (manifest_file : string) (lines : list string)
  : M (option string) :=
  match lines with
  | [] => ret None
  | line :: rest =>
      if contains STEAM_MANIFEST_INSTALL_DIR_KEY (strip line) then
        let found :=
          findall (replace STEAM_MANIFEST_INSTALL_DIR_KEY EmptyString line) in
        if negb (length found =? 1) then
          log_error ("Unable to determine directory of install dir from manifest f"
                     +:+ manifest_file) ;;
          ret None
        else
          v <- index0 found ;;
          ret (Some v)
      else scan_lines manifest_file rest
  end.

Definition get_manifest_install_directory (fs : filesystem)
    (manifest_file : string) : M (option string) :=
  log_info ("Checking install dir of manifest: '" +:+ manifest_file +:+ "'") ;;
  lines <- open_readlines fs manifest_file ;;
  scan_lines manifest_file lines.

Definition get_manifests_and_detect_game_directories (fs : filesystem)
    (games_folder_glob manifests_glob : string) : gset string * list string :=
  let manifests := filter (fun x => fs_isfile fs x = true)
                          (fs_glob fs manifests_glob) in
  let game_folders : gset string :=
    list_to_set
      (filter
         (fun x => fs_isdir fs x = true
                   /\ ~ lower (basename x) ∈ STEAM_FOLDER_IGNORE_LIST)
         (fs_glob fs games_folder_glob)) in
  (game_folders, manifests).

Definition get_set_of_installed_directories (fs : filesystem)
    (manifests : list string) : M (gset (option string)) :=
  results <- map_m (get_manifest_install_directory fs) manifests ;;
  let installed_list : gset (option string) := list_to_set results in
  for_each (elements installed_list)
    (fun installed =>
       log_info ("Found installed directory: '" +:+ fmt installed +:+ "'")) ;;
  ret installed_list.

(** The loop of [find_unmapped_directories] over the items of the dict;
    [str] of a [str] is the same [str]. *)
Fixpoint collect_unmapped (items : dict) (installed_list : gset (option string))
    (found_uninstalled_dirs : list string) : list string :=
  match items with
  | [] => found_uninstalled_dirs
  | (directory_name, detected_directory) :: rest =>
      if bool_decide (Some directory_name ∈ installed_list)
      then collect_unmapped rest installed_list found_uninstalled_dirs
      else collect_unmapped rest installed_list
             (found_uninstalled_dirs ++ [detected_directory])
  end.

Definition find_unmapped_directories (game_folders_base_paths : dict)
    (installed_list : gset (option string)) : list string :=
  sorted (collect_unmapped game_folders_base_paths installed_list []).

(** [{basename(x): x for x in game_folders}] *)
Definition base_paths (game_folders : list string) : dict :=
  fold_left (fun d x => dict_set (basename x) x d) game_folders [].

Definition find_all_unassociated_steam_game_directories (fs : filesystem)
    (steam_apps_dir : string) : M (list string) :=
  let manifests_glob :=
    join_path steam_apps_dir ("*." +:+ STEAM_MANIFEST_EXTENSION) in
  let games_folder_glob :=
    join_path (join_path steam_apps_dir STEAM_COMMON_FOLDER) "*" in
  log_info ("Using steamapps dir: '" +:+ steam_apps_dir +:+ "'") ;;
  log_info ("Using manifests glob search: '" +:+ manifests_glob +:+ "'") ;;
  log_info ("Using game_folder glob search: '" +:+ games_folder_glob +:+ "'") ;;
  let '(game_folders, manifests) :=
    get_manifests_and_detect_game_directories fs games_folder_glob
      manifests_glob in
  let game_folders_base_paths := base_paths (elements game_folders) in
  log_info "Detected manifests:" ;;
  for_each manifests
    (fun manifest => log_info (String "009" ("'" +:+ manifest +:+ "'"))) ;;
  log_info "Detected folders:" ;;
  for_each (elements game_folders)
    (fun game_folder => log_info (String "009" ("'" +:+ game_folder +:+ "'"))) ;;
  installed_list <- get_set_of_installed_directories fs manifests ;;
  ret (find_unmapped_directories game_folders_base_paths installed_list).

(** [main], from the value of the option [--steam-apps-directory] that
    [parse_arguments] hands over. The value of the computation is the
    list of the lines written by [print], in the order they are written. *)
Definition main (fs : filesystem) (steam_apps_directory : string)
  : M (list string) :=
  let steam_apps_dir := strip steam_apps_directory in
  unassociated_directories <-
    find_all_unassociated_steam_game_directories fs steam_apps_dir ;;
  if length unassociated_directories =? 0 then
    ret ["No non-associated installed directories detected"]
  else
    ret ("Found the following directories not associated with an active install manifest:"
         :: map (fun directory => String "009" ("'" +:+ directory +:+ "'"))
              unassociated_directories).

End Steam.

Import Py Regex Effects Steam.

(** ** Predicates of the statements *)

(** [s] wrapped in a pair of double quotes. *)
Definition quoted (s : string) : string := String dq (s +:+ str1 dq).

(** Does the character [c] occur in [s]? *)
Fixpoint occurs (c : ascii) (s : string) : bool :=
  match s with
  | EmptyString => false
  | String d t => Ascii.eqb d c || occurs c t
  end.

(** A newline, if any, is the last character: the shape of a line given
    by [readlines]. *)
Fixpoint newline_only_last (s : string) : bool :=
  match s with
  | EmptyString => true
  | String c t =>
      if Ascii.eqb c nl then
        match t with EmptyString => true | String _ _ => false end
      else newline_only_last t
  end.

(** The line does not hold the key: the test of the loop fails on it. *)
Definition no_key (line : string) : Prop :=
  contains STEAM_MANIFEST_INSTALL_DIR_KEY (strip line) = false.

Definition has_key (line : string) : Prop :=
  contains STEAM_MANIFEST_INSTALL_DIR_KEY (strip line) = true.

(** The candidate map as its caller builds it: every key is the base name
    of the path it maps to. *)
Definition keyed_by_basename (C : dict) : Prop :=
  ∀ k p, (k, p) ∈ C → basename p = k.

(** The entries of [C] whose key is not in [I], in the order of [C]. *)
Definition unmapped_entries (C : dict) (I : gset (option string)) : dict :=
  filter (λ kp, Some kp.1 ∉ I) C.

(** The manifest can be opened and decoded. *)
Definition readable (fs : filesystem) (manifest_file : string) : Prop :=
  ∃ text, fs_read fs manifest_file = inr text.

(** The record logged for a key line the regular expression does not
    match exactly once. *)
Definition parse_failure (manifest_file : string) : record :=
  (ERROR,
   "Unable to determine directory of install dir from manifest f"
   +:+ manifest_file).

(** The record logged when a manifest is about to be opened. *)
Definition checking (manifest_file : string) : record :=
  (INFO, "Checking install dir of manifest: '" +:+ manifest_file +:+ "'").

(** What a manifest contributes to the installed set: the value
    [get_manifest_install_directory] returns for it. *)
Definition install_dir_of (fs : filesystem) (manifest_file : string)
  : option string :=
  match (get_manifest_install_directory fs manifest_file []).1 with
  | Return v => v
  | Raise _ => None
  end.

(** Every character of [s] is white space for [str.strip]. *)
Fixpoint all_space (s : string) : bool :=
  match s with
  | EmptyString => true
  | String c t => is_space c && all_space t
  end.

(** The manifests the whole scan hands to the manifest locator, and the
    game folders it hands to the reconciler, for a steamapps directory. *)
Definition manifests_of (fs : filesystem) (steam_apps_dir : string)
  : list string :=
  (get_manifests_and_detect_game_directories fs
     (join_path (join_path steam_apps_dir STEAM_COMMON_FOLDER) "*")
     (join_path steam_apps_dir ("*." +:+ STEAM_MANIFEST_EXTENSION))).2.

Definition game_folders_of (fs : filesystem) (steam_apps_dir : string)
  : gset string :=
  (get_manifests_and_detect_game_directories fs
     (join_path (join_path steam_apps_dir STEAM_COMMON_FOLDER) "*")
     (join_path steam_apps_dir ("*." +:+ STEAM_MANIFEST_EXTENSION))).1.

(** The records the whole scan logs before it hands the manifests to the
    manifest locator. *)
Definition scan_infos (fs : filesystem) (steam_apps_dir : string)
  : list record :=
  [(INFO, "Using steamapps dir: '" +:+ steam_apps_dir +:+ "'");
   (INFO, "Using manifests glob search: '"
          +:+ join_path steam_apps_dir ("*." +:+ STEAM_MANIFEST_EXTENSION)
          +:+ "'");
   (INFO, "Using game_folder glob search: '"
          +:+ join_path (join_path steam_apps_dir STEAM_COMMON_FOLDER) "*"
          +:+ "'");
   (INFO, "Detected manifests:")]
  ++ ((λ manifest, (INFO, String "009" ("'" +:+ manifest +:+ "'")))
        <$> manifests_of fs steam_apps_dir)
  ++ [(INFO, "Detected folders:")]
  ++ ((λ game_folder, (INFO, String "009" ("'" +:+ game_folder +:+ "'")))
        <$> elements (game_folders_of fs steam_apps_dir)).


(** ** File systems of the examples *)

Fixpoint assoc {A} (key : string) (table : list (string * A)) : option A :=
  match table with
  | [] => None
  | (k, a) :: rest => if String.eqb k key then Some a else assoc key rest
  end.

(** A file system given by tables: the text of every readable file, the
    paths every glob pattern expands to, and the directories. A path
    outside [files] cannot be opened. *)
Definition table_fs (files : list (string * string))
    (globs : list (string * list string)) (dirs : list string) : filesystem :=
  {| fs_read p :=
       match assoc p files with
       | Some text => inr text
       | None => inl (OSError p)
       end;
     fs_glob pattern := default [] (assoc pattern globs);
     fs_isfile p := bool_decide (p ∈ files.*1);
     fs_isdir p := bool_decide (p ∈ dirs) |}.

Definition key_line (value : string) : string :=
  String "009" (STEAM_MANIFEST_INSTALL_DIR_KEY +:+ "  " +:+ value +:+ str1 nl).

(** A steamapps directory: two manifests, one of them without the key,
    a directory with the name of a manifest, and under the common folder
    an installed title, a left-over directory, an ignored directory and a
    plain file. *)
Definition example_fs : filesystem :=
  table_fs
    [("/s/a.acf", key_line (quoted "MyGame"));
     ("/s/b.acf", "{" +:+ str1 nl +:+ "}" +:+ str1 nl)]
    [("/s/*.acf", ["/s/a.acf"; "/s/b.acf"; "/s/dir.acf"]);
     ("/s/common/*",
      ["/s/common/MyGame"; "/s/common/STEAM CONTROLLER CONFIGS";
       "/s/common/Old"; "/s/common/notes.txt"])]
    ["/s/common/MyGame"; "/s/common/STEAM CONTROLLER CONFIGS";
     "/s/common/Old"; "/s/dir.acf"].


(** A decidable proposition settled by evaluation. *)
Ltac decide_by_eval := apply (bool_decide_unpack _); vm_compute; exact I.

(** ** The reconciler *)

Section Reconciler.
Implicit Types (C : dict) (I : gset (option string)).

Lemma collect_unmapped_spec C I acc :
  collect_unmapped C I acc = acc ++ (unmapped_entries C I).*2.
Proof.
  unfold unmapped_entries.
  revert acc. induction C as [|[k p] C IH]; intros acc.
  - simpl. by rewrite app_nil_r.
  - rewrite filter_cons. cbn [collect_unmapped fst].
    case_bool_decide as Hk.
    + rewrite decide_False by tauto. apply IH.
    + rewrite decide_True by done. rewrite IH, fmap_cons. simpl.
      by rewrite <- app_assoc.
Qed.

Lemma sorted_Sorted (l : list string) : Sorted String.le (sorted l).
Proof. apply Sorted_merge_sort, _. Qed.

Lemma sorted_Permutation (l : list string) : sorted l ≡ₚ l.
Proof. apply merge_sort_Permutation. Qed.

(** The sorted list depends only on the elements, not on their order. *)
Lemma sorted_perm_eq (l1 l2 : list string) : l1 ≡ₚ l2 → sorted l1 = sorted l2.
Proof.
  intros Hp. apply (Sorted_unique String.le); try apply sorted_Sorted.
  by rewrite !sorted_Permutation.
Qed.

Lemma sorted_of_Sorted (l : list string) : Sorted String.le l → sorted l = l.
Proof.
  intros Hs. apply (Sorted_unique String.le); auto using sorted_Sorted.
  apply sorted_Permutation.
Qed.

Lemma find_unmapped_directories_spec C I :
  find_unmapped_directories C I = sorted (unmapped_entries C I).*2.
Proof. unfold find_unmapped_directories. by rewrite collect_unmapped_spec. Qed.

Lemma elem_of_find_unmapped C I p :
  p ∈ find_unmapped_directories C I ↔ ∃ k, (k, p) ∈ C ∧ Some k ∉ I.
Proof.
  rewrite find_unmapped_directories_spec, sorted_Permutation.
  rewrite list_elem_of_fmap. unfold unmapped_entries. split.
  - intros [[k q] [-> [Hk Hin]%list_elem_of_filter]]. eauto.
  - intros (k & Hin & Hk). exists (k, p). split; [done|].
    by apply list_elem_of_filter.
Qed.

Lemma keyed_excluded C I k p :
  keyed_by_basename C → (k, p) ∈ C → Some k ∈ I →
  p ∉ find_unmapped_directories C I.
Proof.
  intros Hkey Hin HI (k' & Hin' & Hk')%elem_of_find_unmapped.
  apply Hkey in Hin, Hin'. congruence.
Qed.

Lemma dict_set_elem k v d kp :
  kp ∈ dict_set k v d → kp = (k, v) ∨ kp ∈ d.
Proof.
  induction d as [|[k' v'] d IH]; simpl.
  - intros ->%list_elem_of_singleton. by left.
  - destruct (String.eqb k' k).
    + intros [->| ?]%elem_of_cons; [by left|]. right. by constructor.
    + intros [->| ?]%elem_of_cons; [right; by constructor|].
      destruct IH as [->| ?]; [done|by left|]. right. by constructor.
Qed.

(** The dict comprehension of the caller gives a map keyed by base name,
    with no path that was not among the game folders. *)
Lemma base_paths_keyed (game_folders : list string) :
  keyed_by_basename (base_paths game_folders)
  ∧ ∀ k p, (k, p) ∈ base_paths game_folders → p ∈ game_folders.
Proof.
  unfold base_paths.
  cut (∀ d : dict,
         (∀ k p, (k, p) ∈ d → basename p = k ∧ p ∈ game_folders) →
         ∀ l, l ⊆ game_folders →
         ∀ k p, (k, p) ∈ fold_left (λ d x, dict_set (basename x) x d) l d →
                basename p = k ∧ p ∈ game_folders).
  { intros H. split; intros k p Hin;
      eapply (H [] ltac:(by intros ?? ?%not_elem_of_nil) game_folders
                ltac:(done)) in Hin; tauto. }
  intros d Hd l. revert d Hd.
  induction l as [|x l IH]; intros d Hd Hsub k p; simpl; [by apply Hd|].
  apply IH.
  - intros k' p' [[= -> ->]| ?]%dict_set_elem; [|by apply Hd].
    split; [done|]. apply Hsub. by left.
  - intros y Hy. apply Hsub. by right.
Qed.

Lemma keyed_by_basename_check C :
  forallb (λ kp, String.eqb (basename kp.2) kp.1) C = true →
  keyed_by_basename C.
Proof.
  intros Hall k p Hin. rewrite forallb_forall in Hall.
  apply list_elem_of_In, Hall in Hin. by apply String.eqb_eq in Hin.
Qed.
End Reconciler.

(** C1. For every candidate map and installed set the reconciler returns
    the paths of exactly the entries whose key is not in the installed
    set, in ascending order; in a map keyed by base name the path of an
    entry whose base name is installed is never returned. *)
Theorem find_unmapped_directories_exact (C : dict) (I : gset (option string)) :
  Sorted String.le (find_unmapped_directories C I)
  ∧ find_unmapped_directories C I ≡ₚ (unmapped_entries C I).*2
  ∧ (∀ p, p ∈ find_unmapped_directories C I ↔ ∃ k, (k, p) ∈ C ∧ Some k ∉ I)
  ∧ (keyed_by_basename C →
     ∀ k p, (k, p) ∈ C → Some k ∈ I → p ∉ find_unmapped_directories C I).
Proof.
  split; [|split; [|split]].
  - rewrite find_unmapped_directories_spec. apply sorted_Sorted.
  - rewrite find_unmapped_directories_spec. apply sorted_Permutation.
  - apply elem_of_find_unmapped.
  - intros Hkey k p. by apply keyed_excluded.
Qed.

Lemma find_unmapped_directories_exact_witness :
  let C := [("A", "/common/A"); ("B", "/common/B"); ("C", "/common/C")] in
  let I : gset (option string) := {[ Some "A"; Some "C" ]} in
  find_unmapped_directories C I = ["/common/B"]
  ∧ "/common/A" ∉ find_unmapped_directories C I.
Proof.
  intros C I. split; [by vm_compute|].
  apply (proj2 (proj2 (proj2 (find_unmapped_directories_exact C I)))) with "A".
  - apply keyed_by_basename_check. reflexivity.
  - decide_by_eval.
  - decide_by_eval.
Defined.

(** C5. Invariant of the reconciler: in a map keyed by base name, an entry
    is left out of the result exactly when its base name is a member of
    the installed set as the very same string; a name of the installed set
    that differs from the base name, be it only by case, excludes
    nothing. *)
Theorem installed_entries_excluded_exact_match
    (C : dict) (I : gset (option string)) (k p : string)
    (Hkey : keyed_by_basename C) (Hin : (k, p) ∈ C) :
  (Some k ∈ I → p ∉ find_unmapped_directories C I)
  ∧ (Some k ∉ I → p ∈ find_unmapped_directories C I)
  ∧ (∀ k', k' ≠ k → lower k' = lower k →
       p ∈ find_unmapped_directories C {[ Some k' ]}).
Proof.
  split; [|split].
  - by apply keyed_excluded.
  - intros Hk. apply elem_of_find_unmapped. eauto.
  - intros k' Hne _. apply elem_of_find_unmapped. exists k. split; [done|].
    intros [=]%elem_of_singleton. congruence.
Qed.

Lemma installed_entries_excluded_exact_match_witness :
  let C := [("Game", "/common/Game"); ("Other", "/common/Other")] in
  ("/common/Other"
     ∉ find_unmapped_directories C {[ Some "game"; Some "Other" ]})
  ∧ "/common/Game" ∈ find_unmapped_directories C {[ Some "game"; Some "Other" ]}
  ∧ "/common/Game" ∈ find_unmapped_directories C {[ Some "game" ]}.
Proof.
  intros C.
  assert (Hkey : keyed_by_basename C)
    by (apply keyed_by_basename_check; reflexivity).
  split; [|split].
  - apply (installed_entries_excluded_exact_match C _ "Other" _ Hkey).
    + decide_by_eval.
    + decide_by_eval.
  - apply (installed_entries_excluded_exact_match C _ "Game" _ Hkey).
    + decide_by_eval.
    + decide_by_eval.
  - apply (installed_entries_excluded_exact_match C ∅ "Game" _ Hkey).
    + decide_by_eval.
    + discriminate.
    + reflexivity.
Defined.

(** C9. The reconciler is a function of its two arguments alone: it reads
    no log and no file system, and inputs that are equal as Python values
    (dicts with the same items, whatever their insertion order, and sets
    with the same elements) give the same ordered result; sorting a result
    again leaves it as it is. *)
Theorem find_unmapped_directories_deterministic
    (C C' : dict) (I I' : gset (option string)) :
  C ≡ₚ C' → I ≡ I' →
  find_unmapped_directories C I = find_unmapped_directories C' I'
  ∧ sorted (find_unmapped_directories C I) = find_unmapped_directories C I.
Proof.
  intros HC HI%leibniz_equiv. subst I'. split.
  - rewrite !find_unmapped_directories_spec. apply sorted_perm_eq.
    unfold unmapped_entries. by rewrite HC.
  - apply sorted_of_Sorted. rewrite find_unmapped_directories_spec.
    apply sorted_Sorted.
Qed.

Lemma find_unmapped_directories_deterministic_witness :
  let C := [("B", "/common/B"); ("A", "/common/A"); ("C", "/common/C")] in
  let C' := [("A", "/common/A"); ("B", "/common/B"); ("C", "/common/C")] in
  let I : gset (option string) := {[ Some "C" ]} in
  find_unmapped_directories C I = find_unmapped_directories C' I
  ∧ sorted (find_unmapped_directories C I) = find_unmapped_directories C I.
Proof.
  intros C C' I.
  apply (find_unmapped_directories_deterministic C C' I I).
  - apply perm_swap.
  - reflexivity.
Defined.

(** C10. The reconciler is antitone in the installed set and returns no
    path of its own making: a larger installed set gives a result
    contained in that of a smaller one, and every path of a result is the
    path of an entry of the candidate map. *)
Theorem find_unmapped_directories_antitone
    (C : dict) (I I' : gset (option string)) (Hsub : I ⊆ I') :
  (∀ p, p ∈ find_unmapped_directories C I' →
        p ∈ find_unmapped_directories C I)
  ∧ (∀ p, p ∈ find_unmapped_directories C I → ∃ k, (k, p) ∈ C)
  ∧ (∀ p, p ∈ find_unmapped_directories C I' → ∃ k, (k, p) ∈ C).
Proof.
  split; [|split]; intros p (k & Hin & Hk)%elem_of_find_unmapped.
  - apply elem_of_find_unmapped. exists k. split; [done|]. set_solver.
  - eauto.
  - eauto.
Qed.

Lemma find_unmapped_directories_antitone_witness :
  let C := [("A", "/common/A"); ("B", "/common/B"); ("C", "/common/C")] in
  "/common/B" ∈ find_unmapped_directories C {[ Some "A" ]}
  ∧ ∃ k, (k, "/common/B") ∈ C.
Proof.
  intros C.
  assert (({[ Some "A" ]} : gset (option string))
            ⊆ {[ Some "A"; Some "C" ]}) as Hsub by decide_by_eval.
  assert ("/common/B" ∈ find_unmapped_directories C {[ Some "A"; Some "C" ]})
    as Hin by decide_by_eval.
  destruct (find_unmapped_directories_antitone C _ _ Hsub)
    as (Hanti & _ & Hfrom).
  split; [by apply Hanti|by apply Hfrom].
Defined.

(** ** The extractor *)

Section Strings.
Lemma app_cons (c : ascii) (a b : string) :
  String c a +:+ b = String c (a +:+ b).
Proof. reflexivity. Qed.

Lemma app_empty (b : string) : EmptyString +:+ b = b.
Proof. reflexivity. Qed.

Lemma app_assoc_str (a b c : string) : (a +:+ b) +:+ c = a +:+ (b +:+ c).
Proof. induction a as [|x a IH]; [done|]. rewrite !app_cons. by f_equal. Qed.

Lemma quoted_app (v b : string) :
  quoted v +:+ b = String dq (v +:+ String dq b).
Proof. unfold quoted, str1. by rewrite app_cons, app_assoc_str. Qed.

Lemma substring_prefix (v r : string) :
  substring 0 (String.length v) (v +:+ r) = v.
Proof.
  induction v as [|c v IH].
  - by destruct r.
  - rewrite app_cons. cbn [String.length substring]. by f_equal.
Qed.

Lemma occurs_cons_false (c d : ascii) (s : string) :
  occurs c (String d s) = false → Ascii.eqb d c = false ∧ occurs c s = false.
Proof. simpl. by intros [??]%orb_false_iff. Qed.
End Strings.

Section Findall.
Lemma findall_scan_S (k : nat) (prev : option ascii) (c : ascii) (t : string) :
  findall_scan (S k) prev (String c t) = findall_scan k (Some c) t.
Proof. reflexivity. Qed.

(** Without a double quote past its first character, a string gives the
    greedy run nothing to stop at. *)
Lemma greedy_no_quote (s : string) :
  occurs dq s = false →
  greedy_dot_plus s = None ∧ ∀ c, greedy_dot_plus (String c s) = None.
Proof.
  induction s as [|d t IH]; intros Hs.
  - split; [done|]. intros c. simpl. by destruct (Ascii.eqb c nl).
  - apply occurs_cons_false in Hs as [Hd Ht].
    destruct (IH Ht) as [IH1 IH2]. split; [apply IH2|].
    intros c. cbn [greedy_dot_plus] in *. rewrite IH2, Hd.
    by destruct (Ascii.eqb c nl).
Qed.

Lemma findall_scan_no_quote (s : string) :
  occurs dq s = false → ∀ skip prev, findall_scan skip prev s = [].
Proof.
  induction s as [|c t IH]; intros Hs skip prev; [done|].
  pose proof (proj1 (greedy_no_quote _ Hs)) as Hg.
  apply occurs_cons_false in Hs as [_ Ht].
  cbn [findall_scan]. rewrite Hg.
  destruct skip; [destruct (is_dq prev)|]; by apply IH.
Qed.

(** The greedy run stops at the last double quote. *)
Lemma greedy_to_last_quote (v b : string) :
  v ≠ EmptyString → occurs nl v = false → occurs dq b = false →
  greedy_dot_plus (v +:+ String dq b) = Some (String.length v).
Proof.
  intros Hv Hnl Hb. induction v as [|c v IH]; [done|].
  apply occurs_cons_false in Hnl as [Hc Hnl].
  rewrite app_cons. cbn [greedy_dot_plus String.length]. rewrite Hc.
  destruct v as [|c' v].
  - rewrite app_empty, (proj2 (greedy_no_quote _ Hb)). by rewrite Ascii.eqb_refl.
  - by rewrite IH.
Qed.

Lemma findall_scan_after_match (v b : string) (prev : option ascii) :
  occurs dq b = false →
  findall_scan (String.length v) prev (v +:+ String dq b) = [].
Proof.
  intros Hb. revert prev. induction v as [|c v IH]; intros prev.
  - rewrite app_empty. cbn [findall_scan String.length].
    rewrite (proj2 (greedy_no_quote _ Hb)).
    destruct (is_dq prev); by apply findall_scan_no_quote.
  - rewrite app_cons. cbn [findall_scan String.length]. apply IH.
Qed.

Lemma findall_scan_before_quote (a rest : string) (prev : option ascii) :
  occurs dq a = false → is_dq prev = false →
  findall_scan 0 prev (a +:+ String dq rest)
  = findall_scan 0 (Some dq) rest.
Proof.
  revert prev. induction a as [|c a IH]; intros prev Ha Hprev.
  - rewrite app_empty. cbn [findall_scan]. by rewrite Hprev.
  - apply occurs_cons_false in Ha as [Hc Ha].
    rewrite app_cons. cbn [findall_scan]. rewrite Hprev. by apply IH.
Qed.

(** What [findall] gives on a string with a first and a last double
    quote: the one match is all that stands between them. *)
Lemma findall_first_to_last_quote (a v b : string) :
  occurs dq a = false → v ≠ EmptyString → occurs nl v = false →
  occurs dq b = false →
  findall (a +:+ quoted v +:+ b) = [v].
Proof.
  intros Ha Hv Hnl Hb. unfold findall.
  rewrite quoted_app, findall_scan_before_quote by done.
  pose proof (greedy_to_last_quote v b Hv Hnl Hb) as Hg.
  destruct v as [|c v]; [done|].
  rewrite app_cons in *. cbn [findall_scan is_dq]. rewrite Ascii.eqb_refl, Hg.
  rewrite <- app_cons, substring_prefix. f_equal.
  cbn [String.length]. rewrite Nat.sub_1_r. simpl.
  by apply findall_scan_after_match.
Qed.

Lemma newline_only_last_tail (c : ascii) (t : string) :
  newline_only_last (String c t) = true → newline_only_last t = true.
Proof. simpl. destruct (Ascii.eqb c nl); [by destruct t|done]. Qed.

Lemma findall_scan_no_run (s : string) :
  newline_only_last s = true → greedy_dot_plus s = None →
  ∀ skip prev, findall_scan skip prev s = [].
Proof.
  induction s as [|c t IH]; intros Hs Hg skip prev; [done|].
  assert (findall_scan 0 (Some c) t = [] ∧ ∀ k, findall_scan k (Some c) t = [])
    as [H0 Hk].
  { cbn [greedy_dot_plus newline_only_last] in *.
    destruct (Ascii.eqb c nl).
    - destruct t; [done|discriminate].
    - destruct (greedy_dot_plus t); [done|]. split; [|intros k]; by apply IH. }
  cbn [findall_scan]. rewrite Hg. destruct skip; [by destruct (is_dq prev)|done].
Qed.

Lemma findall_scan_past_run (s : string) (n : nat) :
  newline_only_last s = true → greedy_dot_plus s = Some n →
  ∀ prev, findall_scan n prev s = [].
Proof.
  revert n. induction s as [|c t IH]; intros n Hs Hg prev; [done|].
  pose proof (newline_only_last_tail _ _ Hs) as Ht.
  cbn [greedy_dot_plus] in Hg. destruct (Ascii.eqb c nl); [done|].
  destruct (greedy_dot_plus t) as [m|] eqn:Hgt.
  - injection Hg as <-. rewrite findall_scan_S. by apply IH.
  - destruct t as [|d t']; [done|]. destruct (Ascii.eqb d dq); [|done].
    injection Hg as <-. rewrite findall_scan_S.
    by apply findall_scan_no_run.
Qed.

Lemma greedy_positive (s : string) (n : nat) :
  greedy_dot_plus s = Some n → n = S (n - 1).
Proof.
  destruct s as [|c t]; [done|]. simpl.
  destruct (Ascii.eqb c nl); [done|].
  destruct (greedy_dot_plus t).
  - intros [= <-]. lia.
  - destruct t as [|d ?]; [done|]. destruct (Ascii.eqb d dq); [|done].
    intros [= <-]. lia.
Qed.

(** On a line there is never a second match. *)
Lemma findall_scan_at_most_one (s : string) :
  newline_only_last s = true →
  ∀ skip prev, length (findall_scan skip prev s) ≤ 1.
Proof.
  induction s as [|c t IH]; intros Hs skip prev; [simpl; lia|].
  pose proof (newline_only_last_tail _ _ Hs) as Ht.
  cbn [findall_scan]. destruct skip; [|by apply IH].
  destruct (is_dq prev); [|by apply IH].
  destruct (greedy_dot_plus (String c t)) as [n|] eqn:Hg; [|by apply IH].
  pose proof (findall_scan_past_run _ _ Hs Hg prev) as Hrun.
  rewrite (greedy_positive _ _ Hg), findall_scan_S in Hrun.
  rewrite Hrun. simpl. lia.
Qed.

Lemma replace_scan_newline_only_last (old s : string) (skip : nat) :
  newline_only_last s = true →
  newline_only_last (replace_scan old EmptyString skip s) = true.
Proof.
  revert skip. induction s as [|c t IH]; intros skip Hs; [done|].
  pose proof (newline_only_last_tail _ _ Hs) as Ht.
  cbn [replace_scan]. destruct skip; [|by apply IH].
  destruct (String.prefix old (String c t)).
  - rewrite app_empty. by apply IH.
  - cbn [newline_only_last] in *. destruct (Ascii.eqb c nl).
    + by destruct t.
    + by apply IH.
Qed.

Lemma readlines_newline_only_last (text : string) :
  Forall (λ line, newline_only_last line = true) (readlines text).
Proof.
  induction text as [|c t IH]; [constructor|]. cbn [readlines].
  destruct (Ascii.eqb c nl) eqn:Hc.
  - constructor; [|done]. simpl. by rewrite Hc.
  - destruct (readlines t) as [|l ls].
    + repeat constructor. simpl. by rewrite Hc.
    + inversion_clear IH. constructor; [|done]. simpl. by rewrite Hc.
Qed.
End Findall.

Section Extractor.
Implicit Types (manifest_file line : string) (lines pre post : list string).

Lemma scan_lines_no_key manifest_file pre lines :
  Forall no_key pre →
  scan_lines manifest_file (pre ++ lines) = scan_lines manifest_file lines.
Proof.
  induction 1 as [|line pre Hline _ IH]; [done|].
  rewrite <- app_comm_cons. cbn [scan_lines].
  unfold no_key in Hline. by rewrite Hline.
Qed.

Lemma scan_lines_at_key manifest_file line lines log :
  has_key line →
  scan_lines manifest_file (line :: lines) log
  = match findall (replace STEAM_MANIFEST_INSTALL_DIR_KEY EmptyString line)
    with
    | [v] => (Return (Some v), log)
    | _ => (Return None, log ++ [parse_failure manifest_file])
    end.
Proof.
  intros Hkey. cbn [scan_lines]. unfold has_key in Hkey. rewrite Hkey.
  by destruct (findall _) as [|v [|w found]].
Qed.

(** The loop never raises. *)
Lemma scan_lines_returns manifest_file lines log :
  ∃ v log', scan_lines manifest_file lines log = (Return v, log').
Proof.
  induction lines as [|line lines IH]; [by eexists _, _|].
  destruct (contains STEAM_MANIFEST_INSTALL_DIR_KEY (strip line)) eqn:Hkey.
  - rewrite scan_lines_at_key by done.
    destruct (findall _) as [|v [|w found]]; by eexists _, _.
  - cbn [scan_lines]. by rewrite Hkey.
Qed.

Lemma get_manifest_install_directory_readable fs manifest_file text log :
  fs_read fs manifest_file = inr text →
  get_manifest_install_directory fs manifest_file log
  = scan_lines manifest_file (readlines text)
      (log ++ [checking manifest_file]).
Proof.
  intros Hread. unfold get_manifest_install_directory, open_readlines.
  rewrite Hread. reflexivity.
Qed.

Lemma get_manifest_install_directory_unreadable fs manifest_file e log :
  fs_read fs manifest_file = inl e →
  get_manifest_install_directory fs manifest_file log
  = (Raise e, log ++ [checking manifest_file]).
Proof.
  intros Hread. unfold get_manifest_install_directory, open_readlines.
  rewrite Hread. reflexivity.
Qed.
End Extractor.

(** C7. The loop over the lines of a manifest ends at the first line that
    holds the key: what it returns and what it logs are those of that
    line alone, whatever lines follow it, and whether the line gave a
    value or a parse failure. *)
Theorem scan_stops_at_first_key_line
    (manifest_file line : string) (pre post post' : list string)
    (Hpre : Forall no_key pre) (Hkey : has_key line) :
  scan_lines manifest_file (pre ++ line :: post)
  = scan_lines manifest_file [line]
  ∧ scan_lines manifest_file (pre ++ line :: post)
    = scan_lines manifest_file (pre ++ line :: post').
Proof.
  assert (∀ rest, scan_lines manifest_file (pre ++ line :: rest)
                  = scan_lines manifest_file [line]) as Hstop.
  { intros rest. rewrite scan_lines_no_key by done.
    cbn [scan_lines]. unfold has_key in Hkey. by rewrite Hkey. }
  split; [apply Hstop|]. by rewrite !Hstop.
Qed.

Lemma scan_stops_at_first_key_line_witness :
  let first := key_line (quoted "First") in
  let later := key_line (quoted "Second") in
  scan_lines "a.acf" ["{" +:+ str1 nl; first; later] []
  = (Return (Some "First"), [])
  ∧ scan_lines "a.acf" ["{" +:+ str1 nl; first; later]
    = scan_lines "a.acf" ["{" +:+ str1 nl; first].
Proof.
  intros first later. split; [by vm_compute|].
  refine (proj2 (scan_stops_at_first_key_line "a.acf" first
                   ["{" +:+ str1 nl] [later] [] _ _)).
  - repeat constructor.
  - by vm_compute.
Defined.

(** C8. A manifest whose key line is the key, two spaces and MyGame
    between double quotes gives exactly the name MyGame. *)
Theorem extract_MyGame
    (fs : filesystem) (manifest_file text : string) (pre post : list string)
    (end_of_line : bool) (log : list record) :
  let line :=
    STEAM_MANIFEST_INSTALL_DIR_KEY +:+ "  " +:+ quoted "MyGame"
    +:+ (if end_of_line then str1 nl else EmptyString) in
  fs_read fs manifest_file = inr text →
  readlines text = pre ++ line :: post →
  Forall no_key pre →
  get_manifest_install_directory fs manifest_file log
  = (Return (Some "MyGame"),
     log ++ [(INFO, "Checking install dir of manifest: '"
                    +:+ manifest_file +:+ "'")]).
Proof.
  intros line Hread Hlines Hpre.
  rewrite (get_manifest_install_directory_readable _ _ _ _ Hread), Hlines.
  rewrite scan_lines_no_key by done.
  rewrite scan_lines_at_key by (by destruct end_of_line; vm_compute).
  by destruct end_of_line; vm_compute.
Qed.

Lemma extract_MyGame_witness :
  let text :=
    quoted "AppState" +:+ str1 nl
    +:+ STEAM_MANIFEST_INSTALL_DIR_KEY +:+ "  " +:+ quoted "MyGame" +:+ str1 nl
    +:+ "}" +:+ str1 nl in
  let fs := table_fs [("/s/a.acf", text)] [] [] in
  get_manifest_install_directory fs "/s/a.acf" []
  = (Return (Some "MyGame"),
     [(INFO, "Checking install dir of manifest: '/s/a.acf'")]).
Proof.
  intros text fs.
  refine (extract_MyGame fs "/s/a.acf" text [quoted "AppState" +:+ str1 nl]
            ["}" +:+ str1 nl] true [] _ _ _).
  - reflexivity.
  - by vm_compute.
  - repeat constructor.
Defined.

(** C3, the claim as stated fails: a key line with two quoted substrings
    after the key gives one match, from the first double quote to the
    last, so a value is returned and nothing is logged. *)
Lemma two_quoted_substrings_give_a_value :
  let line :=
    STEAM_MANIFEST_INSTALL_DIR_KEY +:+ " " +:+ quoted "A" +:+ " "
    +:+ quoted "B" +:+ str1 nl in
  has_key line
  ∧ replace STEAM_MANIFEST_INSTALL_DIR_KEY EmptyString line
    = " " +:+ quoted "A" +:+ " " +:+ quoted "B" +:+ str1 nl
  ∧ scan_lines "a.acf" [line] []
    = (Return (Some ("A" +:+ String dq (" " +:+ String dq "B"))), [])
  ∧ (get_set_of_installed_directories
       (table_fs [("a.acf", line)] [] []) ["a.acf"] []).1
    = Return {[ Some ("A" +:+ String dq (" " +:+ String dq "B")) ]}.
Proof. repeat split; by vm_compute. Qed.

(** C3, amended. The match between the double quotes is greedy. When the
    first key line, once the key is removed, reads: a text without double
    quote, a double quote, a non-empty text [v] without newline, a double
    quote, a text without double quote, then the value extracted is [v],
    which may itself hold double quotes, as it does when the line holds
    two quoted substrings; nothing is logged. A line never gives a second
    match: either there is one match and its text is the value, or there
    is none, and then a parse failure is logged, nothing is raised and no
    value is given. *)
Theorem key_line_greedy_extraction
    (manifest_file line : string) (pre post : list string) (log : list record)
    (Hpre : Forall no_key pre) (Hkey : has_key line) :
  let s := replace STEAM_MANIFEST_INSTALL_DIR_KEY EmptyString line in
  (∀ a v b, s = a +:+ quoted v +:+ b →
     occurs dq a = false → v ≠ EmptyString → occurs nl v = false →
     occurs dq b = false →
     scan_lines manifest_file (pre ++ line :: post) log
     = (Return (Some v), log))
  ∧ (newline_only_last line = true →
     (∃ v, findall s = [v]
           ∧ scan_lines manifest_file (pre ++ line :: post) log
             = (Return (Some v), log))
     ∨ (findall s = []
        ∧ scan_lines manifest_file (pre ++ line :: post) log
          = (Return None, log ++ [parse_failure manifest_file]))).
Proof.
  intros s. rewrite scan_lines_no_key, scan_lines_at_key by done. fold s.
  split.
  - intros a v b -> Ha Hv Hnl Hb.
    by rewrite findall_first_to_last_quote.
  - intros Hline.
    assert (length (findall s) ≤ 1) as Hlen.
    { apply findall_scan_at_most_one. unfold s, replace. simpl.
      by apply replace_scan_newline_only_last. }
    destruct (findall s) as [|v [|w found]]; [by right|left; eauto|].
    simpl in Hlen. lia.
Qed.

Lemma key_line_greedy_extraction_witness :
  let line :=
    STEAM_MANIFEST_INSTALL_DIR_KEY +:+ " " +:+ quoted "A" +:+ " "
    +:+ quoted "B" +:+ str1 nl in
  scan_lines "a.acf" [line] []
  = (Return (Some ("A" +:+ String dq (" " +:+ String dq "B"))), []).
Proof.
  intros line.
  refine (proj1 (key_line_greedy_extraction "a.acf" line [] [] [] _ _)
            " " ("A" +:+ String dq (" " +:+ String dq "B")) (str1 nl)
            _ _ _ _ _).
  - constructor.
  - by vm_compute.
  - by vm_compute.
  - reflexivity.
  - discriminate.
  - reflexivity.
  - reflexivity.
Defined.

(** ** The manifest locator *)

Section Locator.
Implicit Types (fs : filesystem) (manifests : list string).

Lemma scan_lines_value_frame manifest_file lines log log0 :
  (scan_lines manifest_file lines log).1
  = (scan_lines manifest_file lines log0).1.
Proof.
  induction lines as [|line lines IH]; [done|].
  destruct (contains STEAM_MANIFEST_INSTALL_DIR_KEY (strip line)) eqn:Hkey.
  - rewrite !scan_lines_at_key by done.
    by destruct (findall _) as [|v [|w found]].
  - cbn [scan_lines]. by rewrite Hkey.
Qed.

(** A readable manifest never raises: it gives its value, [None] for a
    manifest without key line or with a key line that has no match. *)
Lemma get_manifest_install_directory_returns fs manifest_file log :
  readable fs manifest_file →
  ∃ log', get_manifest_install_directory fs manifest_file log
          = (Return (install_dir_of fs manifest_file), log').
Proof.
  intros [text Hread]. unfold install_dir_of.
  rewrite !(get_manifest_install_directory_readable _ _ text) by done.
  rewrite (scan_lines_value_frame _ _ _ (log ++ [checking manifest_file])).
  destruct (scan_lines_returns manifest_file (readlines text)
              (log ++ [checking manifest_file])) as (v & log' & ->).
  by exists log'.
Qed.

Lemma for_each_log_info {A} (xs : list A) (message : A → string) log :
  for_each xs (λ x, log_info (message x)) log
  = (Return tt, log ++ ((λ x, (INFO, message x)) <$> xs)).
Proof.
  revert log. induction xs as [|x xs IH]; intros log; simpl.
  - by rewrite app_nil_r.
  - unfold bind, log_info at 1. rewrite IH. by rewrite <- app_assoc.
Qed.

Lemma bind_log_info {B} (msg : string) (k : unit → M B) log :
  bind (log_info msg) k log = k tt (log ++ [(INFO, msg)]).
Proof. reflexivity. Qed.

Lemma bind_for_each_log_info {A B} (xs : list A) (message : A → string)
    (k : unit → M B) log :
  bind (for_each xs (λ x, log_info (message x))) k log
  = k tt (log ++ ((λ x, (INFO, message x)) <$> xs)).
Proof. unfold bind. by rewrite for_each_log_info. Qed.

Lemma map_m_readable fs manifests log :
  Forall (readable fs) manifests →
  ∃ log', map_m (get_manifest_install_directory fs) manifests log
          = (Return (install_dir_of fs <$> manifests), log').
Proof.
  intros Hall. revert log.
  induction Hall as [|m ms Hm _ IH]; intros log; [by exists log|].
  destruct (get_manifest_install_directory_returns fs m log Hm) as [l1 H1].
  destruct (IH l1) as [l2 H2]. exists l2.
  cbn [map_m]. unfold bind at 1. rewrite H1.
  unfold bind at 1. by rewrite H2.
Qed.

Lemma map_m_unreadable fs pre m post e log :
  Forall (readable fs) pre → fs_read fs m = inl e →
  ∃ log', map_m (get_manifest_install_directory fs) (pre ++ m :: post) log
          = (Raise e, log').
Proof.
  intros Hall Hm. revert log.
  induction Hall as [|x pre Hx _ IH]; intros log.
  - eexists. cbn [map_m app]. unfold bind at 1.
    by rewrite (get_manifest_install_directory_unreadable _ _ e).
  - destruct (get_manifest_install_directory_returns fs x log Hx) as [l1 H1].
    destruct (IH l1) as [l2 H2]. exists l2.
    rewrite <- app_comm_cons. cbn [map_m]. unfold bind at 1. rewrite H1.
    unfold bind at 1. by rewrite H2.
Qed.

Lemma installed_set_readable fs manifests log :
  Forall (readable fs) manifests →
  ∃ log', get_set_of_installed_directories fs manifests log
          = (Return (list_to_set (install_dir_of fs <$> manifests)), log').
Proof.
  intros Hall. destruct (map_m_readable fs manifests log Hall) as [l1 H1].
  eexists. unfold get_set_of_installed_directories.
  unfold bind at 1. rewrite H1.
  unfold bind at 1. rewrite for_each_log_info. reflexivity.
Qed.

Lemma install_dir_of_no_key fs manifest_file text :
  fs_read fs manifest_file = inr text → Forall no_key (readlines text) →
  install_dir_of fs manifest_file = None.
Proof.
  intros Hread Hall. unfold install_dir_of.
  rewrite (get_manifest_install_directory_readable _ _ text) by done.
  rewrite <- (app_nil_r (readlines text)), scan_lines_no_key by done.
  reflexivity.
Qed.

Lemma install_dir_of_no_match fs manifest_file text pre line post :
  fs_read fs manifest_file = inr text →
  readlines text = pre ++ line :: post →
  Forall no_key pre → has_key line →
  findall (replace STEAM_MANIFEST_INSTALL_DIR_KEY EmptyString line) = [] →
  install_dir_of fs manifest_file = None.
Proof.
  intros Hread Hlines Hpre Hkey Hfound. unfold install_dir_of.
  rewrite (get_manifest_install_directory_readable _ _ text) by done.
  rewrite Hlines, scan_lines_no_key, scan_lines_at_key by done.
  by rewrite Hfound.
Qed.
End Locator.

(** C2, the claim as stated fails: a manifest that cannot be opened raises
    out of the scan, and the manifest after it is never looked at. *)
Lemma unreadable_manifest_aborts_scan :
  let fs := table_fs [("/s/b.acf", key_line (quoted "MyGame"))] [] [] in
  get_set_of_installed_directories fs ["/s/a.acf"; "/s/b.acf"] []
  = (Raise (OSError "/s/a.acf"),
     [(INFO, "Checking install dir of manifest: '/s/a.acf'")])
  ∧ (get_set_of_installed_directories fs ["/s/b.acf"] []).1
    = Return {[ Some "MyGame" ]}.
Proof. split; by vm_compute. Qed.

(** C2, amended. A malformed key line is absorbed where it occurs: as long
    as every manifest can be opened the scan returns, nothing is raised,
    and a manifest whose key line has no match contributes [None], no
    name. A manifest that cannot be opened is not absorbed: the exception
    of [open] leaves the scan at that manifest. *)
Theorem manifest_failures
    (fs : filesystem) (manifests : list string) (log : list record) :
  (Forall (readable fs) manifests →
   ∃ log', get_set_of_installed_directories fs manifests log
           = (Return (list_to_set (install_dir_of fs <$> manifests)), log'))
  ∧ (∀ manifest_file text pre line post,
       fs_read fs manifest_file = inr text →
       readlines text = pre ++ line :: post →
       Forall no_key pre → has_key line →
       findall (replace STEAM_MANIFEST_INSTALL_DIR_KEY EmptyString line) = [] →
       install_dir_of fs manifest_file = None
       ∧ ∃ log', get_manifest_install_directory fs manifest_file log
                 = (Return None, log'))
  ∧ (∀ before manifest_file after e,
       manifests = before ++ manifest_file :: after →
       Forall (readable fs) before → fs_read fs manifest_file = inl e →
       ∃ log', get_set_of_installed_directories fs manifests log
               = (Raise e, log')).
Proof.
  split; [|split].
  - apply installed_set_readable.
  - intros m text pre line post Hread Hlines Hpre Hkey Hfound.
    pose proof (install_dir_of_no_match _ _ _ _ _ _ Hread Hlines Hpre Hkey
                  Hfound) as Hnone.
    split; [done|]. rewrite <- Hnone.
    apply get_manifest_install_directory_returns. by exists text.
  - intros before m after e -> Hbefore Hm.
    destruct (map_m_unreadable fs before m after e log Hbefore Hm) as [l1 H1].
    exists l1. unfold get_set_of_installed_directories.
    unfold bind at 1. by rewrite H1.
Qed.

Lemma manifest_failures_witness :
  let good := key_line (quoted "MyGame") in
  let malformed := key_line "MyGame" in
  let fs :=
    table_fs [("/s/a.acf", malformed); ("/s/b.acf", good)] [] [] in
  (∃ log', get_set_of_installed_directories fs ["/s/a.acf"; "/s/b.acf"] []
           = (Return {[ None; Some "MyGame" ]}, log'))
  ∧ install_dir_of fs "/s/a.acf" = None
  ∧ (∃ log', get_set_of_installed_directories fs
               ["/s/b.acf"; "/s/c.acf"; "/s/a.acf"] []
             = (Raise (OSError "/s/c.acf"), log')).
Proof.
  intros good malformed fs. split; [|split].
  - refine (proj1 (manifest_failures fs ["/s/a.acf"; "/s/b.acf"] []) _).
    repeat constructor; eexists; reflexivity.
  - refine (proj1 (proj1 (proj2 (manifest_failures fs [] []))
                     "/s/a.acf" malformed [] malformed [] _ _ _ _ _)).
    + reflexivity.
    + by vm_compute.
    + constructor.
    + by vm_compute.
    + by vm_compute.
  - refine (proj2 (proj2 (manifest_failures fs
                            ["/s/b.acf"; "/s/c.acf"; "/s/a.acf"] []))
              ["/s/b.acf"] "/s/c.acf" ["/s/a.acf"] (OSError "/s/c.acf")
              _ _ _).
    + reflexivity.
    + repeat constructor; eexists; reflexivity.
    + reflexivity.
Defined.

Section NoneElement.
Implicit Types (C : dict) (I : gset (option string)).

(** [None] is no directory name: in the installed set it excludes
    nothing. *)
Lemma find_unmapped_directories_None C I :
  find_unmapped_directories C (I ∪ {[ None ]})
  = find_unmapped_directories C I.
Proof.
  rewrite !find_unmapped_directories_spec. unfold unmapped_entries.
  f_equal. f_equal. apply list_filter_iff. intros [k p]. cbn [fst].
  rewrite elem_of_union, elem_of_singleton. split.
  - intros Hk ?. apply Hk. by left.
  - intros Hk [?|?]; [done|discriminate].
Qed.

Lemma find_unmapped_directories_empty C :
  find_unmapped_directories C ∅ = sorted C.*2.
Proof.
  rewrite find_unmapped_directories_spec. unfold unmapped_entries.
  f_equal. f_equal. induction C as [|kp C IH]; [done|].
  rewrite filter_cons_True by set_solver. by f_equal.
Qed.

Lemma installed_set_no_key fs manifests :
  manifests ≠ [] →
  Forall (λ m, ∃ text, fs_read fs m = inr text
                       ∧ Forall no_key (readlines text)) manifests →
  list_to_set (install_dir_of fs <$> manifests)
  = ({[ None ]} : gset (option string)).
Proof.
  intros Hsome Hall. apply set_eq. intros v.
  rewrite elem_of_list_to_set, list_elem_of_fmap, elem_of_singleton.
  rewrite Forall_forall in Hall. split.
  - intros (m & -> & Hm). destruct (Hall m Hm) as (text & Hread & Hkeys).
    by apply install_dir_of_no_key with text.
  - intros ->. destruct manifests as [|m ms]; [done|]. exists m.
    split; [|by left].
    destruct (Hall m ltac:(by left)) as (text & Hread & Hkeys).
    symmetry. by apply install_dir_of_no_key with text.
Qed.
End NoneElement.

(** C4, the claim as stated fails: the value [None] of a manifest without
    key line is collected like any other, so the installed set of such
    manifests is not empty. *)
Lemma keyless_manifest_installed_set_not_empty :
  let fs := table_fs [("/s/a.acf", quoted "AppState" +:+ str1 nl)] [] [] in
  (get_set_of_installed_directories fs ["/s/a.acf"] []).1
  = Return {[ None ]}
  ∧ (get_set_of_installed_directories fs ["/s/a.acf"] []).1 ≠ Return ∅
  ∧ (get_set_of_installed_directories fs ["/s/a.acf"] []).2
    = [(INFO, "Checking install dir of manifest: '/s/a.acf'");
       (INFO, "Found installed directory: 'None'")].
Proof. repeat split; by vm_compute. Qed.

(** C4, amended. The manifest locator collects every extraction result,
    [None] included: a manifest in which the key line is never found
    contributes [None] and no name. When manifests are present and none
    holds the key, the installed set is the set whose one element is
    [None]; as [None] is no directory name, the result is every candidate
    directory, sorted. *)
Theorem keyless_manifests_installed_set
    (fs : filesystem) (manifests : list string) (log : list record) (C : dict)
    (Hsome : manifests ≠ [])
    (Hkeyless : Forall (λ m, ∃ text, fs_read fs m = inr text
                                     ∧ Forall no_key (readlines text))
                  manifests) :
  (∃ log', get_set_of_installed_directories fs manifests log
           = (Return {[ None ]}, log'))
  ∧ find_unmapped_directories C {[ None ]} = sorted C.*2
  ∧ (∀ I, find_unmapped_directories C (I ∪ {[ None ]})
          = find_unmapped_directories C I).
Proof.
  split; [|split].
  - rewrite <- (installed_set_no_key fs manifests Hsome Hkeyless).
    apply installed_set_readable.
    eapply Forall_impl; [exact Hkeyless|]. intros m (text & Hread & _).
    by exists text.
  - rewrite <- (left_id_L ∅ (∪) {[ None ]}), find_unmapped_directories_None.
    apply find_unmapped_directories_empty.
  - intros I. apply find_unmapped_directories_None.
Qed.

Lemma keyless_manifests_installed_set_witness :
  let fs :=
    table_fs [("/s/a.acf", quoted "AppState" +:+ str1 nl);
              ("/s/b.acf", "{" +:+ str1 nl +:+ "}" +:+ str1 nl)] [] [] in
  let C := [("B", "/s/common/B"); ("A", "/s/common/A")] in
  (∃ log', get_set_of_installed_directories fs ["/s/a.acf"; "/s/b.acf"] []
           = (Return {[ None ]}, log'))
  ∧ find_unmapped_directories C {[ None ]} = ["/s/common/A"; "/s/common/B"].
Proof.
  intros fs C.
  refine (let H := keyless_manifests_installed_set fs
                     ["/s/a.acf"; "/s/b.acf"] [] C _ _ in
          conj (proj1 H) (proj1 (proj2 H))).
  - discriminate.
  - repeat constructor; eexists; (split; [reflexivity|repeat constructor]).
Defined.

(** ** The directory locator *)

Section DirectoryLocator.
Implicit Types (fs : filesystem).

Lemma ignore_list_case_variants (name : string) :
  lower name ∈ STEAM_FOLDER_IGNORE_LIST
  ↔ lower name = lower "Steam Controller Configs".
Proof. unfold STEAM_FOLDER_IGNORE_LIST. by rewrite elem_of_singleton. Qed.

Lemma game_folders_kept fs games_folder_glob manifests_glob x :
  x ∈ (get_manifests_and_detect_game_directories fs games_folder_glob
         manifests_glob).1
  ↔ x ∈ fs_glob fs games_folder_glob ∧ fs_isdir fs x = true
    ∧ lower (basename x) ∉ STEAM_FOLDER_IGNORE_LIST.
Proof.
  unfold get_manifests_and_detect_game_directories. cbn [fst].
  rewrite elem_of_list_to_set, list_elem_of_filter. tauto.
Qed.

(** What the whole scan returns, when it returns, is what the reconciler
    gives on the map of the game folders. *)
Lemma find_all_result fs steam_apps_dir log result log' :
  find_all_unassociated_steam_game_directories fs steam_apps_dir log
  = (Return result, log') →
  ∃ I, result
       = find_unmapped_directories
           (base_paths
              (elements
                 (get_manifests_and_detect_game_directories fs
                    (join_path (join_path steam_apps_dir STEAM_COMMON_FOLDER)
                       "*")
                    (join_path steam_apps_dir
                       ("*." +:+ STEAM_MANIFEST_EXTENSION))).1))
           I.
Proof.
  unfold find_all_unassociated_steam_game_directories.
  unfold get_manifests_and_detect_game_directories. cbn [fst].
  repeat (rewrite bind_log_info || rewrite bind_for_each_log_info).
  unfold bind.
  destruct (get_set_of_installed_directories _ _ _) as [[I|e] l];
    intros [= <- <-]. by exists I.
Qed.
End DirectoryLocator.

(** C6. A directory entry whose base name, in lower case, is in the ignore
    set is dropped by the directory locator, whatever the manifests say:
    it is not among the game folders, and it is in no result of the whole
    scan. *)
Theorem ignored_directories_dropped
    (fs : filesystem) (games_folder_glob manifests_glob x : string)
    (Hignored : lower (basename x) ∈ STEAM_FOLDER_IGNORE_LIST) :
  (x ∉ (get_manifests_and_detect_game_directories fs games_folder_glob
          manifests_glob).1)
  ∧ (∀ steam_apps_dir log result log',
       find_all_unassociated_steam_game_directories fs steam_apps_dir log
       = (Return result, log') →
       x ∉ result).
Proof.
  split.
  - rewrite game_folders_kept. tauto.
  - intros dir log result log' [I ->]%find_all_result
      (k & Hin & _)%elem_of_find_unmapped.
    apply base_paths_keyed, elem_of_elements, game_folders_kept in Hin. tauto.
Qed.

Lemma ignored_directories_dropped_witness :
  let fs :=
    table_fs [("/s/a.acf", key_line (quoted "MyGame"))]
      [("/s/*.acf", ["/s/a.acf"]);
       ("/s/common/*",
        ["/s/common/MyGame"; "/s/common/STEAM CONTROLLER CONFIGS";
         "/s/common/Old"])]
      ["/s/common/MyGame"; "/s/common/STEAM CONTROLLER CONFIGS";
       "/s/common/Old"] in
  ("/s/common/STEAM CONTROLLER CONFIGS"
     ∉ (get_manifests_and_detect_game_directories fs "/s/common/*"
          "/s/*.acf").1)
  ∧ (find_all_unassociated_steam_game_directories fs "/s" []).1
    = Return ["/s/common/Old"].
Proof.
  intros fs. split; [|by vm_compute].
  refine (proj1 (ignored_directories_dropped fs "/s/common/*" "/s/*.acf"
                   "/s/common/STEAM CONTROLLER CONFIGS" _)).
  apply ignore_list_case_variants. reflexivity.
Defined.

(** ** More on the extractor *)

Section QuoteShapes.
Lemma occurs_app (c : ascii) (a b : string) :
  occurs c (a +:+ b) = occurs c a || occurs c b.
Proof.
  induction a as [|x a IH]; [done|].
  rewrite app_cons. simpl. by rewrite IH, orb_assoc.
Qed.

Lemma split_first_quote (s : string) :
  occurs dq s = false
  ∨ ∃ a r, s = a +:+ String dq r ∧ occurs dq a = false.
Proof.
  induction s as [|c s IH]; [by left|].
  destruct (Ascii.eqb c dq) eqn:Hc.
  - right. exists EmptyString, s. apply Ascii.eqb_eq in Hc as ->. by split.
  - destruct IH as [Hs|(a & r & -> & Ha)].
    + left. simpl. by rewrite Hc.
    + right. exists (String c a), r. split; [done|]. simpl. by rewrite Hc.
Qed.

Lemma split_last_quote (s : string) :
  occurs dq s = false
  ∨ ∃ v b, s = v +:+ String dq b ∧ occurs dq b = false.
Proof.
  induction s as [|c s IH]; [by left|].
  destruct IH as [Hs|(v & b & -> & Hb)].
  - destruct (Ascii.eqb c dq) eqn:Hc.
    + right. exists EmptyString, s. apply Ascii.eqb_eq in Hc as ->. by split.
    + left. simpl. by rewrite Hc.
  - right. by exists (String c v), b.
Qed.

Lemma newline_only_last_before (a b : string) (c : ascii) :
  newline_only_last (a +:+ String c b) = true → occurs nl a = false.
Proof.
  induction a as [|x a IH]; [done|].
  rewrite app_cons. cbn [newline_only_last occurs].
  destruct (Ascii.eqb x nl).
  - by destruct a.
  - done.
Qed.

Lemma findall_one_quote (a r : string) :
  occurs dq a = false → occurs dq r = false →
  findall (a +:+ String dq r) = [].
Proof.
  intros Ha Hr. unfold findall.
  rewrite findall_scan_before_quote by done.
  by apply findall_scan_no_quote.
Qed.

Lemma findall_empty_quoted (a b : string) :
  occurs dq a = false → occurs dq b = false →
  findall (a +:+ quoted EmptyString +:+ b) = [].
Proof.
  intros Ha Hb. unfold findall.
  rewrite quoted_app, app_empty, findall_scan_before_quote by done.
  cbn [findall_scan is_dq]. rewrite Ascii.eqb_refl.
  rewrite (proj2 (greedy_no_quote _ Hb)).
  by apply findall_scan_no_quote.
Qed.

(** On a line the regular expression matches once exactly when the line
    has a first and a last double quote with something between them, and
    the match is what stands between them. *)
Lemma findall_line_shape (s v : string) :
  newline_only_last s = true →
  findall s = [v]
  ↔ ∃ a b, s = a +:+ quoted v +:+ b
           ∧ occurs dq a = false ∧ v ≠ EmptyString ∧ occurs dq b = false.
Proof.
  intros Hs. split.
  - intros Hfound.
    destruct (split_first_quote s) as [Hno|(a & r & -> & Ha)].
    { unfold findall in Hfound.
      by rewrite (findall_scan_no_quote _ Hno) in Hfound. }
    destruct (split_last_quote r) as [Hno|(w & b & -> & Hb)].
    { by rewrite findall_one_quote in Hfound. }
    destruct (decide (w = EmptyString)) as [->|Hw].
    { rewrite app_empty in Hfound.
      by rewrite <- (app_empty (String dq b)), <- quoted_app,
           findall_empty_quoted in Hfound. }
    assert (occurs nl w = false) as Hnl.
    { rewrite <- quoted_app, quoted_app in Hs.
      change (String dq (w +:+ String dq b))
        with (str1 dq +:+ w +:+ String dq b) in Hs.
      rewrite <- !app_assoc_str in Hs.
      apply newline_only_last_before in Hs.
      rewrite !occurs_app in Hs. by apply orb_false_iff in Hs as [_ ?]. }
    rewrite <- quoted_app in Hfound.
    rewrite findall_first_to_last_quote in Hfound by done.
    injection Hfound as <-. exists a, b. by rewrite quoted_app.
  - intros (a & b & -> & Ha & Hv & Hb).
    apply findall_first_to_last_quote; try done.
    rewrite quoted_app in Hs.
    change (String dq (v +:+ String dq b))
      with (str1 dq +:+ v +:+ String dq b) in Hs.
    rewrite <- !app_assoc_str in Hs.
    apply newline_only_last_before in Hs.
    rewrite !occurs_app in Hs. by apply orb_false_iff in Hs as [_ ?].
Qed.
End QuoteShapes.

Section ExtractorCases.
Implicit Types (fs : filesystem) (manifest_file line text : string).

Lemma replace_key_newline_only_last line :
  newline_only_last line = true →
  newline_only_last (replace STEAM_MANIFEST_INSTALL_DIR_KEY EmptyString line)
  = true.
Proof. intros Hline. by apply replace_scan_newline_only_last. Qed.

Lemma key_line_of_readlines text pre line post :
  readlines text = pre ++ line :: post → newline_only_last line = true.
Proof.
  intros Hlines. pose proof (readlines_newline_only_last text) as Hall.
  rewrite Hlines in Hall. apply Forall_app in Hall as [_ Hall].
  by inversion Hall.
Qed.

(** The loop gives a value only from a key line that is the first of the
    file and that the regular expression matches once; it logs nothing
    then. *)
Lemma scan_lines_value manifest_file lines log v log' :
  scan_lines manifest_file lines log = (Return (Some v), log') →
  log' = log
  ∧ ∃ pre line post,
      lines = pre ++ line :: post ∧ Forall no_key pre ∧ has_key line
      ∧ findall (replace STEAM_MANIFEST_INSTALL_DIR_KEY EmptyString line)
        = [v].
Proof.
  induction lines as [|line lines IH]; [done|].
  destruct (contains STEAM_MANIFEST_INSTALL_DIR_KEY (strip line)) eqn:Hkey.
  - rewrite scan_lines_at_key by done.
    destruct (findall _) as [|w [|w' found]] eqn:Hfound; try done.
    intros [= -> ->]. split; [done|]. by exists [], line, lines.
  - cbn [scan_lines]. rewrite Hkey. intros [-> (pre & l & post & -> & ? & ?)]%IH.
    split; [done|]. exists (line :: pre), l, post. split; [done|].
    split; [by constructor|done].
Qed.

Lemma scan_lines_all_no_key manifest_file lines log :
  Forall no_key lines →
  scan_lines manifest_file lines log = (Return None, log).
Proof.
  intros Hall. by rewrite <- (app_nil_r lines), scan_lines_no_key.
Qed.

Lemma first_key_line lines :
  Forall no_key lines
  ∨ ∃ pre line post,
      lines = pre ++ line :: post ∧ Forall no_key pre ∧ has_key line.
Proof.
  induction lines as [|line lines IH]; [by left|].
  destruct (contains STEAM_MANIFEST_INSTALL_DIR_KEY (strip line)) eqn:Hkey.
  - right. by exists [], line, lines.
  - destruct IH as [Hall|(pre & l & post & -> & Hpre & Hl)].
    + left. by constructor.
    + right. exists (line :: pre), l, post. split; [done|].
      split; [by constructor|done].
Qed.
End ExtractorCases.

(** X1. For a manifest that can be read, with its first key line given,
    the extractor returns the name [v] exactly when that line, once every
    occurrence of the key is removed, has a first and a last double quote
    with the non-empty text [v] between them; only the record of the
    check is logged then. *)
Theorem extraction_exact
    (fs : filesystem) (manifest_file text line v : string)
    (pre post : list string) (log : list record)
    (Hread : fs_read fs manifest_file = inr text)
    (Hlines : readlines text = pre ++ line :: post)
    (Hpre : Forall no_key pre) (Hkey : has_key line) :
  get_manifest_install_directory fs manifest_file log
  = (Return (Some v), log ++ [checking manifest_file])
  ↔ ∃ a b,
      replace STEAM_MANIFEST_INSTALL_DIR_KEY EmptyString line
      = a +:+ quoted v +:+ b
      ∧ occurs dq a = false ∧ v ≠ EmptyString ∧ occurs dq b = false.
Proof.
  rewrite (get_manifest_install_directory_readable _ _ _ _ Hread), Hlines.
  rewrite scan_lines_no_key, scan_lines_at_key by done.
  rewrite <- findall_line_shape
    by (eapply replace_key_newline_only_last, key_line_of_readlines; eauto).
  destruct (findall _) as [|w [|w' found]]; split; try done.
  - by intros [= ->].
  - by intros [= ->].
Qed.

Lemma extraction_exact_witness :
  let text :=
    quoted "AppState" +:+ str1 nl +:+ key_line (quoted "Half-Life 2")
    +:+ "}" +:+ str1 nl in
  let fs := table_fs [("/s/a.acf", text)] [] [] in
  get_manifest_install_directory fs "/s/a.acf" []
  = (Return (Some "Half-Life 2"), [] ++ [checking "/s/a.acf"]).
Proof.
  intros text fs.
  refine (proj2 (extraction_exact fs "/s/a.acf" text
                   (key_line (quoted "Half-Life 2")) "Half-Life 2"
                   [quoted "AppState" +:+ str1 nl] ["}" +:+ str1 nl] []
                   _ _ _ _) _).
  - reflexivity.
  - by vm_compute.
  - repeat constructor.
  - by vm_compute.
  - exists (String "009" "  "), (str1 nl). repeat split; by vm_compute.
Defined.

(** X2. Whatever the file system and the manifest, a name the extractor
    returns is never empty and holds no newline, and no error was logged
    on the way: the log has grown by the record of the check alone. *)
Theorem extracted_name_well_formed
    (fs : filesystem) (manifest_file v : string) (log log' : list record) :
  get_manifest_install_directory fs manifest_file log
  = (Return (Some v), log') →
  v ≠ EmptyString ∧ occurs nl v = false
  ∧ log' = log ++ [checking manifest_file].
Proof.
  destruct (fs_read fs manifest_file) as [e|text] eqn:Hread.
  { by rewrite (get_manifest_install_directory_unreadable _ _ e). }
  rewrite (get_manifest_install_directory_readable _ _ text) by done.
  intros [-> (pre & line & post & Hlines & _ & _ & Hfound)]%scan_lines_value.
  pose proof (key_line_of_readlines _ _ _ _ Hlines) as Hline%replace_key_newline_only_last.
  apply findall_line_shape in Hfound as (a & b & Hs & _ & Hv & _); [|done].
  split; [done|]. split; [|done].
  rewrite Hs, quoted_app in Hline.
  change (String dq (v +:+ String dq b))
    with (str1 dq +:+ v +:+ String dq b) in Hline.
  rewrite <- !app_assoc_str in Hline.
  apply newline_only_last_before in Hline.
  rewrite !occurs_app in Hline. by apply orb_false_iff in Hline as [_ ?].
Qed.

Lemma extracted_name_well_formed_witness :
  let fs := table_fs [("/s/a.acf", key_line (quoted "MyGame"))] [] [] in
  "MyGame" ≠ EmptyString ∧ occurs nl "MyGame" = false
  ∧ [checking "/s/a.acf"] = [] ++ [checking "/s/a.acf"].
Proof.
  intros fs.
  refine (extracted_name_well_formed fs "/s/a.acf" "MyGame" []
            [checking "/s/a.acf"] _).
  by vm_compute.
Defined.

(** X3. A readable manifest gives no value and logs no error exactly when
    none of its lines holds the key; an empty file is such a manifest. *)
Theorem key_absent_is_silent
    (fs : filesystem) (manifest_file text : string) (log : list record)
    (Hread : fs_read fs manifest_file = inr text) :
  get_manifest_install_directory fs manifest_file log
  = (Return None, log ++ [checking manifest_file])
  ↔ Forall no_key (readlines text).
Proof.
  rewrite (get_manifest_install_directory_readable _ _ _ _ Hread).
  split; [|apply scan_lines_all_no_key].
  destruct (first_key_line (readlines text))
    as [Hall|(pre & line & post & -> & Hpre & Hkey)]; [done|].
  rewrite scan_lines_no_key, scan_lines_at_key by done.
  destruct (findall _) as [|w [|w' found]]; try done.
  - intros [= Hlog]. by apply (f_equal length) in Hlog;
      rewrite !length_app in Hlog; simpl in Hlog; lia.
  - intros [= Hlog]. by apply (f_equal length) in Hlog;
      rewrite !length_app in Hlog; simpl in Hlog; lia.
Qed.

Lemma key_absent_is_silent_witness :
  let fs := table_fs [("/s/empty.acf", EmptyString)] [] [] in
  get_manifest_install_directory fs "/s/empty.acf" []
  = (Return None, [] ++ [checking "/s/empty.acf"]).
Proof.
  intros fs.
  refine (proj2 (key_absent_is_silent fs "/s/empty.acf" EmptyString [] _) _).
  - reflexivity.
  - constructor.
Defined.

(** X4. For a readable manifest with its first key line given, a parse
    failure (no value, the error record logged after the record of the
    check, nothing raised) happens exactly when the line, once the key is
    removed, has no first and last double quote with a non-empty text
    between them. So it happens when the value is not quoted at all, when
    a single double quote is left, and when the quoted value is empty. *)
Theorem parse_failure_exact
    (fs : filesystem) (manifest_file text line : string)
    (pre post : list string) (log : list record)
    (Hread : fs_read fs manifest_file = inr text)
    (Hlines : readlines text = pre ++ line :: post)
    (Hpre : Forall no_key pre) (Hkey : has_key line) :
  let s := replace STEAM_MANIFEST_INSTALL_DIR_KEY EmptyString line in
  let failure :=
    get_manifest_install_directory fs manifest_file log
    = (Return None,
       log ++ [checking manifest_file; parse_failure manifest_file]) in
  (failure
   ↔ ¬ ∃ v a b, s = a +:+ quoted v +:+ b
                ∧ occurs dq a = false ∧ v ≠ EmptyString
                ∧ occurs dq b = false)
  ∧ (occurs dq s = false → failure)
  ∧ (∀ a r, s = a +:+ String dq r →
            occurs dq a = false → occurs dq r = false → failure)
  ∧ (∀ a b, s = a +:+ quoted EmptyString +:+ b →
            occurs dq a = false → occurs dq b = false → failure).
Proof.
  intros s failure.
  assert (failure ↔ findall s = []) as Hfail.
  { unfold failure.
    rewrite (get_manifest_install_directory_readable _ _ _ _ Hread), Hlines.
    rewrite scan_lines_no_key, scan_lines_at_key by done. fold s.
    assert (length (findall s) ≤ 1) as Hlen.
    { apply findall_scan_at_most_one, replace_key_newline_only_last.
      eapply key_line_of_readlines; eauto. }
    destruct (findall s) as [|w [|w' found]].
    - by rewrite <- app_assoc.
    - by split.
    - simpl in Hlen. lia. }
  assert (newline_only_last s = true) as Hs.
  { eapply replace_key_newline_only_last, key_line_of_readlines; eauto. }
  split; [|split; [|split]].
  - rewrite Hfail. split.
    + intros Hnone (v & a & b & Hshape).
      assert (findall s = [v]) as Hone
        by (apply (findall_line_shape s v Hs); by exists a, b).
      by rewrite Hnone in Hone.
    + intros Hno.
      assert (length (findall s) ≤ 1) as Hlen
        by by apply findall_scan_at_most_one.
      destruct (findall s) as [|w [|w' found]] eqn:Hfound; [done| |].
      * apply (findall_line_shape s w Hs) in Hfound as (a & b & Hshape).
        destruct Hno. by exists w, a, b.
      * simpl in Hlen. lia.
  - intros Hno. apply Hfail. by apply findall_scan_no_quote.
  - intros a r Heq Ha Hr. apply Hfail. rewrite Heq.
    by apply findall_one_quote.
  - intros a b Heq Ha Hb. apply Hfail. rewrite Heq.
    by apply findall_empty_quoted.
Qed.

Lemma parse_failure_exact_witness :
  let fs :=
    table_fs [("/s/a.acf", key_line (quoted EmptyString))] [] [] in
  get_manifest_install_directory fs "/s/a.acf" []
  = (Return None, [] ++ [checking "/s/a.acf"; parse_failure "/s/a.acf"]).
Proof.
  intros fs.
  refine (proj2 (proj2 (proj2
            (parse_failure_exact fs "/s/a.acf" (key_line (quoted EmptyString))
               (key_line (quoted EmptyString)) [] [] [] _ _ _ _)))
            (String "009" "  ") (str1 nl) _ _ _).
  - reflexivity.
  - by vm_compute.
  - constructor.
  - by vm_compute.
  - by vm_compute.
  - reflexivity.
  - reflexivity.
Defined.

(** X5. The only exception that leaves the extractor is the one raised
    when the manifest is opened and read: the index into the list of
    matches is guarded by the test on its length and raises nothing. *)
Theorem only_open_raises
    (fs : filesystem) (manifest_file : string) (e : exn)
    (log log' : list record) :
  get_manifest_install_directory fs manifest_file log = (Raise e, log')
  ↔ fs_read fs manifest_file = inl e ∧ log' = log ++ [checking manifest_file].
Proof.
  destruct (fs_read fs manifest_file) as [e'|text] eqn:Hread.
  - rewrite (get_manifest_install_directory_unreadable _ _ e') by done.
    split; [by intros [= -> ->]|by intros [[= ->] ->]].
  - rewrite (get_manifest_install_directory_readable _ _ text) by done.
    destruct (scan_lines_returns manifest_file (readlines text)
                (log ++ [checking manifest_file])) as (v & l & ->).
    split; [done|by intros [? _]].
Qed.

Section KeyTest.
Lemma prefix_empty (s : string) : String.prefix EmptyString s = true.
Proof. by destruct s. Qed.

Lemma prefix_cons (k x : ascii) (key s : string) :
  String.prefix (String k key) (String x s)
  = if Ascii.eqb k x then String.prefix key s else false.
Proof.
  simpl. destruct (ascii_dec k x) as [->|Hne].
  - by rewrite Ascii.eqb_refl.
  - by apply Ascii.eqb_neq in Hne as ->.
Qed.

Lemma prefix_of_empty (k : ascii) (key : string) :
  String.prefix (String k key) EmptyString = false.
Proof. reflexivity. Qed.

Lemma prefix_rstrip (key : string) (c : ascii) (s : string) :
  is_space c = false →
  String.prefix (key +:+ str1 c) (rstrip s)
  = String.prefix (key +:+ str1 c) s.
Proof.
  intros Hc. revert key. induction s as [|x t IH]; intros key; [done|].
  cbn [rstrip]. destruct key as [|k key].
  - rewrite app_empty. unfold str1. rewrite prefix_cons, prefix_empty.
    destruct (rstrip t) as [|y t'].
    + destruct (is_space x) eqn:Hx.
      * destruct (Ascii.eqb c x) eqn:Hcx; [|done].
        apply Ascii.eqb_eq in Hcx as ->. congruence.
      * unfold str1. by rewrite prefix_cons, prefix_empty.
    + by rewrite prefix_cons, prefix_empty.
  - rewrite app_cons, prefix_cons, <- IH.
    destruct (rstrip t) as [|y t'].
    + replace (String.prefix (key +:+ str1 c) EmptyString) with false
        by by destruct key.
      destruct (Ascii.eqb k x) eqn:Hkx, (is_space x); try done.
      all: unfold str1; rewrite prefix_cons, Hkx; try done; by destruct key.
    + by rewrite prefix_cons.
Qed.

Lemma contains_unfold (key s : string) :
  contains key s
  = String.prefix key s
    || match s with
       | EmptyString => false
       | String _ t => contains key t
       end.
Proof. by destruct s. Qed.

Lemma contains_rstrip (key : string) (c : ascii) (s : string) :
  is_space c = false →
  contains (key +:+ str1 c) (rstrip s) = contains (key +:+ str1 c) s.
Proof.
  intros Hc. induction s as [|x t IH]; [done|].
  rewrite (contains_unfold _ (String x t)), <- (prefix_rstrip _ _ _ Hc), <- IH.
  rewrite (contains_unfold _ (rstrip (String x t))). f_equal.
  cbn [rstrip]. destruct (rstrip t) as [|y t']; [|done].
  assert (contains (key +:+ str1 c) EmptyString = false) as ->
    by by destruct key.
  destruct (is_space x); [done|]. unfold str1 at 2. by destruct key.
Qed.

Lemma contains_lstrip (c : ascii) (key s : string) :
  is_space c = false →
  contains (String c key) (lstrip s) = contains (String c key) s.
Proof.
  intros Hc. induction s as [|x t IH]; [done|].
  cbn [lstrip]. destruct (is_space x) eqn:Hx; [|done].
  rewrite IH, (contains_unfold _ (String x t)), prefix_cons.
  destruct (Ascii.eqb c x) eqn:Hcx; [|done].
  apply Ascii.eqb_eq in Hcx as ->. congruence.
Qed.
End KeyTest.

(** X6. The call of [strip] in the test of the loop changes nothing: a
    line holds the key after its leading and trailing white space is
    removed exactly when it holds the key as it stands. *)
Theorem key_test_ignores_strip (line : string) :
  contains STEAM_MANIFEST_INSTALL_DIR_KEY (strip line)
  = contains STEAM_MANIFEST_INSTALL_DIR_KEY line
  ∧ (has_key line ↔ contains STEAM_MANIFEST_INSTALL_DIR_KEY line = true).
Proof.
  assert (contains STEAM_MANIFEST_INSTALL_DIR_KEY (strip line)
          = contains STEAM_MANIFEST_INSTALL_DIR_KEY line) as Heq.
  { unfold strip.
    change STEAM_MANIFEST_INSTALL_DIR_KEY
      with (String dq "installdir" +:+ str1 dq) at 1.
    rewrite contains_rstrip by done.
    change (String dq "installdir" +:+ str1 dq)
      with (String dq ("installdir" +:+ str1 dq)).
    by rewrite contains_lstrip. }
  split; [done|]. unfold has_key. by rewrite Heq.
Qed.

(** ** The candidate map *)

Section CandidateMap.
Implicit Types (d : dict) (k v : string).

Lemma dict_set_keys k v d :
  (dict_set k v d).*1 = if bool_decide (k ∈ d.*1) then d.*1 else d.*1 ++ [k].
Proof.
  induction d as [|[k' v'] d IH]; [done|]. cbn [dict_set].
  destruct (String.eqb k' k) eqn:Hk.
  - apply String.eqb_eq in Hk as ->. rewrite !fmap_cons. cbn [fst].
    rewrite bool_decide_eq_true_2; [done|by left].
  - apply String.eqb_neq in Hk. rewrite !fmap_cons, IH. cbn [fst].
    case_bool_decide as Hin.
    + rewrite bool_decide_eq_true_2; [done|by right].
    + rewrite bool_decide_eq_false_2; [done|].
      intros [->|?]%elem_of_cons; [done|by apply Hin].
Qed.

Lemma dict_set_NoDup k v d : NoDup d.*1 → NoDup (dict_set k v d).*1.
Proof.
  intros Hd. rewrite dict_set_keys. case_bool_decide as Hin; [done|].
  apply NoDup_app. split; [done|]. split; [|apply NoDup_singleton].
  intros x Hx ->%list_elem_of_singleton. by apply Hin.
Qed.

Lemma dict_set_item k v d k' v' :
  NoDup d.*1 →
  (k', v') ∈ dict_set k v d
  ↔ (k' = k ∧ v' = v) ∨ (k' ≠ k ∧ (k', v') ∈ d).
Proof.
  induction d as [|[k0 v0] d IH]; intros Hd.
  - cbn [dict_set]. rewrite list_elem_of_singleton. split.
    + intros [= -> ->]. by left.
    + intros [[-> ->]|[_ []%not_elem_of_nil]]. done.
  - rewrite fmap_cons in Hd. apply NoDup_cons in Hd as [Hk0 Hd].
    cbn [dict_set fst] in *. destruct (String.eqb k0 k) eqn:Hk.
    + apply String.eqb_eq in Hk as ->. rewrite !elem_of_cons. split.
      * intros [[= -> ->]|Hin]; [by left|]. right. split; [|by right].
        intros ->. apply Hk0. apply list_elem_of_fmap. by exists (k, v').
      * intros [[-> ->]|[Hne [[= ? ?]|Hin]]]; [by left|done|by right].
    + apply String.eqb_neq in Hk. rewrite !elem_of_cons, (IH Hd). split.
      * intros [[= -> ->]|[[-> ->]|[Hne Hin]]].
        -- right. split; [done|by left].
        -- by left.
        -- right. split; [done|by right].
      * intros [[-> ->]|[Hne [[= -> ->]|Hin]]].
        -- right. by left.
        -- by left.
        -- right. right. by split.
Qed.

Lemma base_paths_snoc (game_folders : list string) (x : string) :
  base_paths (game_folders ++ [x])
  = dict_set (basename x) x (base_paths game_folders).
Proof. unfold base_paths. by rewrite fold_left_app. Qed.

Lemma base_paths_NoDup (game_folders : list string) :
  NoDup (base_paths game_folders).*1.
Proof.
  induction game_folders as [|x l IH] using rev_ind; [constructor|].
  rewrite base_paths_snoc. by apply dict_set_NoDup.
Qed.

Lemma base_paths_keys (game_folders : list string) (k : string) :
  k ∈ (base_paths game_folders).*1 ↔ k ∈ basename <$> game_folders.
Proof.
  induction game_folders as [|x l IH] using rev_ind; [done|].
  rewrite base_paths_snoc, dict_set_keys, fmap_app, elem_of_app.
  rewrite <- IH. cbn [fmap list_fmap]. rewrite list_elem_of_singleton.
  case_bool_decide as Hin.
  - split; [by left|]. by intros [?| ->].
  - by rewrite elem_of_app, list_elem_of_singleton.
Qed.
End CandidateMap.

(** X7. The dict comprehension over the game folders gives a dict, with
    one entry a base name; when several folders share a base name, the
    one met last is the one kept: an entry of the map is a folder with
    that base name that no folder with the same base name follows. *)
Theorem base_paths_last_wins (game_folders : list string) :
  NoDup (base_paths game_folders).*1
  ∧ ∀ k p, (k, p) ∈ base_paths game_folders
           ↔ ∃ before after,
               game_folders = before ++ p :: after ∧ basename p = k
               ∧ Forall (λ y, basename y ≠ k) after.
Proof.
  split; [apply base_paths_NoDup|].
  induction game_folders as [|x l IH] using rev_ind; intros k p.
  - split; [by intros ?%not_elem_of_nil|].
    intros (before & after & Heq & _). by destruct before.
  - rewrite base_paths_snoc, dict_set_item by apply base_paths_NoDup.
    rewrite IH. split.
    + intros [[-> ->]|[Hne (before & after & -> & Hk & Hafter)]].
      * exists l, []. by repeat split.
      * exists before, (after ++ [x]). rewrite <- app_assoc. split; [done|].
        split; [done|]. apply Forall_app. split; [done|].
        constructor; [congruence|constructor].
    + intros (before & after & Heq & Hk & Hafter).
      destruct after as [|y after _] using rev_ind.
      * apply app_inj_tail in Heq as [-> ->]. by left.
      * rewrite app_comm_cons, app_assoc in Heq.
        apply app_inj_tail in Heq as [-> ->].
        apply Forall_app in Hafter as [Hafter Hx].
        apply Forall_inv in Hx. right.
        split; [intros Heq'; apply Hx; by symmetry|].
        by exists before, after.
Qed.

(** ** More on the reconciler *)

(** X8. Once one more name is installed, the directory of that name
    leaves the report and nothing else changes: on a map keyed by base
    name the paths reported are those reported before whose base name is
    not the new name. *)
Theorem one_more_installed_name
    (C : dict) (I : gset (option string)) (name : string)
    (Hkey : keyed_by_basename C) (p : string) :
  p ∈ find_unmapped_directories C ({[ Some name ]} ∪ I)
  ↔ p ∈ find_unmapped_directories C I ∧ basename p ≠ name.
Proof.
  rewrite !elem_of_find_unmapped. split.
  - intros (k & Hin & Hk). rewrite not_elem_of_union in Hk.
    destruct Hk as [Hne Hk]. split; [by exists k|].
    rewrite (Hkey _ _ Hin). intros ->. by apply Hne, elem_of_singleton.
  - intros [(k & Hin & Hk) Hne]. exists k. split; [done|].
    rewrite not_elem_of_union, elem_of_singleton. split; [|done].
    intros [= ->]. by rewrite (Hkey _ _ Hin) in Hne.
Qed.

Lemma one_more_installed_name_witness :
  let C := [("A", "/common/A"); ("B", "/common/B"); ("C", "/common/C")] in
  ("/common/A" ∈ find_unmapped_directories C ({[ Some "B" ]} ∪ {[ Some "C" ]}))
  ∧ ("/common/B"
       ∉ find_unmapped_directories C ({[ Some "B" ]} ∪ {[ Some "C" ]})).
Proof.
  intros C.
  assert (Hkey : keyed_by_basename C)
    by (apply keyed_by_basename_check; reflexivity).
  split.
  - apply (one_more_installed_name C {[ Some "C" ]} "B" Hkey "/common/A").
    split; [decide_by_eval|discriminate].
  - intros [_ Hne]%(one_more_installed_name C {[ Some "C" ]} "B" Hkey).
    by apply Hne.
Defined.

(** X9. The report accounts for the whole candidate map: the entries
    reported and the entries whose name is installed add up to the
    entries of the map, so the report is never longer than the map. *)
Theorem report_and_installed_partition (C : dict) (I : gset (option string)) :
  length (find_unmapped_directories C I)
  + length (filter (λ kp, Some kp.1 ∈ I) C)
  = length C
  ∧ length (find_unmapped_directories C I) ≤ length C.
Proof.
  assert (length (find_unmapped_directories C I)
          + length (filter (λ kp, Some kp.1 ∈ I) C) = length C) as Hsum.
  { rewrite find_unmapped_directories_spec, sorted_Permutation, length_fmap.
    unfold unmapped_entries. rewrite Nat.add_comm, <- length_app.
    apply Permutation_length.
    apply (filter_app_complement (λ kp : string * string, Some kp.1 ∈ I)). }
  split; [done|lia].
Qed.

(** ** The whole scan *)

Section WholeScan.
Implicit Types (fs : filesystem) (steam_apps_dir : string).

Lemma find_all_unfold_infos fs steam_apps_dir log :
  find_all_unassociated_steam_game_directories fs steam_apps_dir log
  = bind (get_set_of_installed_directories fs (manifests_of fs steam_apps_dir))
      (λ installed_list,
         ret (find_unmapped_directories
                (base_paths (elements (game_folders_of fs steam_apps_dir)))
                installed_list))
      (log ++ scan_infos fs steam_apps_dir).
Proof.
  unfold find_all_unassociated_steam_game_directories, scan_infos,
    manifests_of, game_folders_of.
  unfold get_manifests_and_detect_game_directories. cbn [fst snd].
  repeat (rewrite bind_log_info || rewrite bind_for_each_log_info).
  by rewrite <- !app_assoc.
Qed.

Lemma find_all_unfold fs steam_apps_dir log :
  ∃ infos,
    find_all_unassociated_steam_game_directories fs steam_apps_dir log
    = bind (get_set_of_installed_directories fs (manifests_of fs steam_apps_dir))
        (λ installed_list,
           ret (find_unmapped_directories
                  (base_paths (elements (game_folders_of fs steam_apps_dir)))
                  installed_list))
        (log ++ infos).
Proof. eexists. apply find_all_unfold_infos. Qed.

Lemma first_unreadable fs (manifests : list string) :
  Forall (readable fs) manifests
  ∨ ∃ before m after e,
      manifests = before ++ m :: after ∧ Forall (readable fs) before
      ∧ fs_read fs m = inl e.
Proof.
  induction manifests as [|m ms IH]; [by left|].
  destruct (fs_read fs m) as [e|text] eqn:Hm.
  - right. by exists [], m, ms, e.
  - destruct IH as [Hall|(before & x & after & e & -> & Hbefore & Hx)].
    + left. constructor; [by exists text|done].
    + right. exists (m :: before), x, after, e. split; [done|].
      split; [|done]. constructor; [by exists text|done].
Qed.

Lemma installed_set_unreadable fs before m after e log :
  Forall (readable fs) before → fs_read fs m = inl e →
  ∃ log', get_set_of_installed_directories fs (before ++ m :: after) log
          = (Raise e, log').
Proof.
  intros Hbefore Hm.
  destruct (map_m_unreadable fs before m after e log Hbefore Hm) as [l1 H1].
  exists l1. unfold get_set_of_installed_directories.
  unfold bind at 1. by rewrite H1.
Qed.

Lemma elem_of_installed_set fs (manifests : list string) (v : option string) :
  v ∈ (list_to_set (install_dir_of fs <$> manifests) : gset (option string))
  ↔ ∃ m, m ∈ manifests ∧ install_dir_of fs m = v.
Proof.
  rewrite elem_of_list_to_set, list_elem_of_fmap. split.
  - intros (m & -> & Hm). by exists m.
  - intros (m & Hm & <-). by exists m.
Qed.

Lemma find_all_readable fs steam_apps_dir log :
  Forall (readable fs) (manifests_of fs steam_apps_dir) →
  ∃ log',
    find_all_unassociated_steam_game_directories fs steam_apps_dir log
    = (Return
         (find_unmapped_directories
            (base_paths (elements (game_folders_of fs steam_apps_dir)))
            (list_to_set (install_dir_of fs <$> manifests_of fs steam_apps_dir))),
       log').
Proof.
  intros Hall. destruct (find_all_unfold fs steam_apps_dir log) as [infos ->].
  destruct (installed_set_readable fs _ (log ++ infos) Hall) as [l Hl].
  exists l. unfold bind. by rewrite Hl.
Qed.

Lemma find_all_unreadable fs steam_apps_dir log before m after e :
  manifests_of fs steam_apps_dir = before ++ m :: after →
  Forall (readable fs) before → fs_read fs m = inl e →
  ∃ log',
    find_all_unassociated_steam_game_directories fs steam_apps_dir log
    = (Raise e, log').
Proof.
  intros Heq Hbefore Hm.
  destruct (find_all_unfold fs steam_apps_dir log) as [infos ->].
  destruct (installed_set_unreadable fs before m after e (log ++ infos)
              Hbefore Hm) as [l Hl].
  exists l. unfold bind. by rewrite Heq, Hl.
Qed.

Lemma find_all_return_inv fs steam_apps_dir log result log' :
  find_all_unassociated_steam_game_directories fs steam_apps_dir log
  = (Return result, log') →
  Forall (readable fs) (manifests_of fs steam_apps_dir)
  ∧ result
    = find_unmapped_directories
        (base_paths (elements (game_folders_of fs steam_apps_dir)))
        (list_to_set (install_dir_of fs <$> manifests_of fs steam_apps_dir)).
Proof.
  intros Hret.
  destruct (first_unreadable fs (manifests_of fs steam_apps_dir))
    as [Hall|(before & m & after & e & Heq & Hbefore & Hm)].
  - split; [done|].
    destruct (find_all_readable fs steam_apps_dir log Hall) as [l Hl].
    rewrite Hl in Hret. by injection Hret as <- _.
  - destruct (find_all_unreadable _ _ log _ _ _ _ Heq Hbefore Hm) as [l Hl].
    by rewrite Hl in Hret.
Qed.

Lemma elem_of_game_folders fs steam_apps_dir x :
  x ∈ game_folders_of fs steam_apps_dir
  ↔ x ∈ fs_glob fs (join_path (join_path steam_apps_dir STEAM_COMMON_FOLDER) "*")
    ∧ fs_isdir fs x = true
    ∧ lower (basename x) ∉ STEAM_FOLDER_IGNORE_LIST.
Proof. apply game_folders_kept. Qed.
End WholeScan.


(** X11. Every path the whole scan reports is a directory that the glob
    of the common folder lists, whose base name is not ignored and is the
    install directory of no manifest; the report is in ascending order
    and lists no path twice. *)
Theorem scan_sound
    (fs : filesystem) (steam_apps_dir : string) (log log' : list record)
    (result : list string)
    (Hret : find_all_unassociated_steam_game_directories fs steam_apps_dir log
            = (Return result, log')) :
  (∀ p, p ∈ result →
        p ∈ fs_glob fs
              (join_path (join_path steam_apps_dir STEAM_COMMON_FOLDER) "*")
        ∧ fs_isdir fs p = true
        ∧ (lower (basename p) ∉ STEAM_FOLDER_IGNORE_LIST)
        ∧ ∀ m, m ∈ manifests_of fs steam_apps_dir →
               install_dir_of fs m ≠ Some (basename p))
  ∧ Sorted String.le result
  ∧ NoDup result.
Proof.
  apply find_all_return_inv in Hret as [_ ->].
  set (D := base_paths (elements (game_folders_of fs steam_apps_dir))).
  pose proof (base_paths_keyed (elements (game_folders_of fs steam_apps_dir)))
    as [Hkey Hfrom]. fold D in Hkey, Hfrom.
  split; [|split].
  - intros p (k & Hin & Hk)%elem_of_find_unmapped.
    pose proof (Hkey _ _ Hin) as <-.
    apply Hfrom, elem_of_elements, elem_of_game_folders in Hin
      as (? & ? & ?).
    repeat split; try done.
    intros m Hm Heq. apply Hk, elem_of_installed_set. by exists m.
  - rewrite find_unmapped_directories_spec. apply sorted_Sorted.
  - rewrite find_unmapped_directories_spec, sorted_Permutation.
    apply (NoDup_fmap_1 basename). rewrite <- list_fmap_compose.
    unfold unmapped_entries.
    assert (∀ l : dict, (∀ k p, (k, p) ∈ l → basename p = k) →
              (basename ∘ snd) <$> l = l.*1) as Hkeys.
    { induction l as [|[k p] l IHl]; intros Hl; [done|].
      rewrite !fmap_cons. cbn [fst snd compose]. f_equal.
      - apply Hl. by left.
      - apply IHl. intros k' p' ?. apply Hl. by right. }
    rewrite Hkeys.
    + apply (sublist_NoDup _ D.*1); [apply base_paths_NoDup|].
      apply fmap_sublist, sublist_filter.
    + intros k p [_ Hin]%list_elem_of_filter. by apply Hkey.
Qed.


Lemma scan_sound_witness :
  fs_isdir example_fs "/s/common/Old" = true
  ∧ (∀ m, m ∈ manifests_of example_fs "/s" →
          install_dir_of example_fs m ≠ Some (basename "/s/common/Old"))
  ∧ NoDup ["/s/common/Old"].
Proof.
  destruct (scan_sound example_fs "/s" []
              (find_all_unassociated_steam_game_directories
                 example_fs "/s" []).2
              ["/s/common/Old"] ltac:(by vm_compute))
    as (Hpaths & _ & Hnodup).
  destruct (Hpaths "/s/common/Old" ltac:(by left)) as (_ & Hdir & _ & Hnone).
  by repeat split.
Defined.



Lemma find_all_empty_iff
    (fs : filesystem) (steam_apps_dir : string) (log log' : list record)
    (result : list string) :
  find_all_unassociated_steam_game_directories fs steam_apps_dir log
  = (Return result, log') →
  result = []
  ↔ ∀ x, x ∈ game_folders_of fs steam_apps_dir →
         ∃ m, m ∈ manifests_of fs steam_apps_dir
              ∧ install_dir_of fs m = Some (basename x).
Proof.
  intros Hret.
  apply find_all_return_inv in Hret as [_ ->].
  pose proof (base_paths_keyed (elements (game_folders_of fs steam_apps_dir)))
    as [Hkey Hfrom].
  set (D := base_paths (elements (game_folders_of fs steam_apps_dir))) in *.
  set (I := list_to_set (install_dir_of fs <$> manifests_of fs steam_apps_dir)
       : gset (option string)).
  split.
  - intros Hempty x Hx.
    destruct (decide (Some (basename x) ∈ I)) as [Hin|Hout].
    { by apply elem_of_installed_set in Hin. }
    assert (basename x ∈ D.*1) as ([k p] & Hk & Hin)%list_elem_of_fmap.
    { apply base_paths_keys, list_elem_of_fmap. exists x.
      split; [done|by apply elem_of_elements]. }
    cbn [fst] in Hk. subst k.
    assert (p ∈ find_unmapped_directories D I) as Hp
      by (apply elem_of_find_unmapped; by exists (basename x)).
    rewrite Hempty in Hp. by apply not_elem_of_nil in Hp.
  - intros Hall.
    destruct (find_unmapped_directories D I) as [|p r] eqn:Hres; [done|].
    assert (p ∈ find_unmapped_directories D I) as Hp
      by (rewrite Hres; by left).
    apply elem_of_find_unmapped in Hp as (k & Hin & Hk).
    pose proof (Hkey _ _ Hin) as <-.
    destruct (Hall p) as (m & Hm & Heq).
    { by apply Hfrom, elem_of_elements in Hin. }
    destruct Hk. apply elem_of_installed_set. by exists m.
Qed.


(** X13. When the whole scan returns, its report is empty exactly when
    every game folder has its base name declared by a manifest. *)
Theorem scan_reports_nothing_iff
    (fs : filesystem) (steam_apps_dir : string) (log log' : list record)
    (result : list string)
    (Hret : find_all_unassociated_steam_game_directories fs steam_apps_dir log
            = (Return result, log')) :
  result = []
  ↔ ∀ x, x ∈ game_folders_of fs steam_apps_dir →
         ∃ m, m ∈ manifests_of fs steam_apps_dir
              ∧ install_dir_of fs m = Some (basename x).
Proof. by apply (find_all_empty_iff fs steam_apps_dir log log'). Qed.

Lemma scan_reports_nothing_iff_witness :
  let fs :=
    table_fs [("/s/a.acf", key_line (quoted "MyGame"))]
      [("/s/*.acf", ["/s/a.acf"]); ("/s/common/*", ["/s/common/MyGame"])]
      ["/s/common/MyGame"] in
  ∃ m, m ∈ manifests_of fs "/s"
       ∧ install_dir_of fs m = Some (basename "/s/common/MyGame").
Proof.
  intros fs.
  refine (proj1 (scan_reports_nothing_iff fs "/s" []
                   (find_all_unassociated_steam_game_directories fs "/s" []).2
                   [] _) _ "/s/common/MyGame" _).
  - by vm_compute.
  - reflexivity.
  - decide_by_eval.
Defined.

Section Independence.
Implicit Types (fs : filesystem) (manifests : list string).

Lemma get_manifest_install_directory_ext fs (fs' : filesystem) manifest_file log :
  fs_read fs manifest_file = fs_read fs' manifest_file →
  get_manifest_install_directory fs manifest_file log
  = get_manifest_install_directory fs' manifest_file log.
Proof.
  intros Hread. unfold get_manifest_install_directory, open_readlines.
  by rewrite Hread.
Qed.


Lemma bind_unfold {A B} (m : M A) (k : A → M B) log :
  bind m k log
  = match m log with
    | (Return a, log') => k a log'
    | (Raise e, log') => (Raise e, log')
    end.
Proof. reflexivity. Qed.

Lemma map_m_ext {A B} (f g : A → M B) (xs : list A) log :
  (∀ x log, x ∈ xs → f x log = g x log) →
  map_m f xs log = map_m g xs log.
Proof.
  revert log. induction xs as [|x xs IH]; intros log Hfg; [done|].
  cbn [map_m]. rewrite (bind_unfold (f x)), (bind_unfold (g x)).
  rewrite Hfg by by left.
  destruct (g x log) as [[y|e] l]; [|done].
  rewrite (bind_unfold (map_m f xs)), (bind_unfold (map_m g xs)).
  rewrite IH; [done|]. intros ???. apply Hfg. by right.
Qed.

Lemma installed_set_ext fs (fs' : filesystem) manifests log :
  (∀ m, m ∈ manifests → fs_read fs m = fs_read fs' m) →
  get_set_of_installed_directories fs manifests log
  = get_set_of_installed_directories fs' manifests log.
Proof.
  intros Hread. unfold get_set_of_installed_directories.
  rewrite (bind_unfold (map_m (get_manifest_install_directory fs) manifests)),
    (bind_unfold (map_m (get_manifest_install_directory fs') manifests)).
  rewrite (map_m_ext _ (get_manifest_install_directory fs')); [done|].
  intros m l Hm. by apply get_manifest_install_directory_ext, Hread.
Qed.

Lemma detect_ext fs (fs' : filesystem) games_folder_glob manifests_glob :
  (∀ pattern, fs_glob fs pattern = fs_glob fs' pattern) →
  (∀ p, fs_isfile fs p = fs_isfile fs' p) →
  (∀ p, fs_isdir fs p = fs_isdir fs' p) →
  get_manifests_and_detect_game_directories fs games_folder_glob manifests_glob
  = get_manifests_and_detect_game_directories fs' games_folder_glob
      manifests_glob.
Proof.
  intros Hglob Hfile Hdir. unfold get_manifests_and_detect_game_directories.
  rewrite !Hglob. f_equal.
  - f_equal. apply list_filter_iff. intros x. by rewrite Hdir.
  - apply list_filter_iff. intros x. by rewrite Hfile.
Qed.

End Independence.

(** X14. The whole scan opens nothing but the manifests it found: two
    file systems with the same results of [glob], [isfile] and [isdir]
    and the same content of those manifests give the same outcome and the
    same log, whatever any other file holds and whether it can be read
    at all. *)
Theorem scan_reads_only_manifests
    (fs fs' : filesystem) (steam_apps_dir : string) (log : list record)
    (Hglob : ∀ pattern, fs_glob fs pattern = fs_glob fs' pattern)
    (Hfile : ∀ p, fs_isfile fs p = fs_isfile fs' p)
    (Hdir : ∀ p, fs_isdir fs p = fs_isdir fs' p)
    (Hread : ∀ m, m ∈ manifests_of fs steam_apps_dir →
                  fs_read fs m = fs_read fs' m) :
  find_all_unassociated_steam_game_directories fs steam_apps_dir log
  = find_all_unassociated_steam_game_directories fs' steam_apps_dir log.
Proof.
  rewrite !find_all_unfold_infos.
  assert (manifests_of fs steam_apps_dir = manifests_of fs' steam_apps_dir
          ∧ game_folders_of fs steam_apps_dir
            = game_folders_of fs' steam_apps_dir) as [Hms Hgf].
  { unfold manifests_of, game_folders_of.
    by rewrite (detect_ext fs fs'). }
  unfold scan_infos. rewrite <- Hms, <- Hgf.
  unfold bind. by rewrite (installed_set_ext fs fs').
Qed.

Lemma scan_reads_only_manifests_witness :
  let fs' :=
    {| fs_read p :=
         if String.eqb p "/s/common/notes.txt"
         then inr (key_line (quoted "Old"))
         else fs_read example_fs p;
       fs_glob := fs_glob example_fs;
       fs_isfile := fs_isfile example_fs;
       fs_isdir := fs_isdir example_fs |} in
  find_all_unassociated_steam_game_directories example_fs "/s" []
  = find_all_unassociated_steam_game_directories fs' "/s" [].
Proof.
  intros fs'.
  refine (scan_reads_only_manifests example_fs fs' "/s" [] _ _ _ _);
    try reflexivity.
  intros m Hm.
  repeat (apply elem_of_cons in Hm as [->|Hm]; [by vm_compute|]).
  by apply not_elem_of_nil in Hm.
Defined.



(** X16. When every manifest can be read, the installed set holds a name
    exactly when some manifest gives it, however many manifests give it
    and in whatever order the manifests come. *)
Theorem installed_set_exact
    (fs : filesystem) (manifests manifests' : list string)
    (log log0 : list record)
    (Hall : Forall (readable fs) manifests)
    (Hperm : manifests ≡ₚ manifests') :
  ∃ installed l l',
    get_set_of_installed_directories fs manifests log = (Return installed, l)
    ∧ get_set_of_installed_directories fs manifests' log0
      = (Return installed, l')
    ∧ ∀ name, Some name ∈ installed
              ↔ ∃ m, m ∈ manifests ∧ install_dir_of fs m = Some name.
Proof.
  assert (Forall (readable fs) manifests') as Hall' by by rewrite <- Hperm.
  destruct (installed_set_readable fs manifests log Hall) as [l Hl].
  destruct (installed_set_readable fs manifests' log0 Hall') as [l' Hl'].
  eexists _, l, l'. split; [exact Hl|]. split.
  - rewrite Hl'. do 2 f_equal. apply set_eq. intros v.
    rewrite !elem_of_installed_set. by setoid_rewrite Hperm.
  - intros name. apply elem_of_installed_set.
Qed.

Lemma installed_set_exact_witness :
  let fs :=
    table_fs [("/s/a.acf", key_line (quoted "MyGame"));
              ("/s/b.acf", key_line (quoted "Other"));
              ("/s/c.acf", key_line (quoted "MyGame"))] [] [] in
  ∃ installed l l',
    get_set_of_installed_directories fs ["/s/a.acf"; "/s/b.acf"; "/s/c.acf"] []
    = (Return installed, l)
    ∧ get_set_of_installed_directories fs
        ["/s/b.acf"; "/s/a.acf"; "/s/c.acf"] []
      = (Return installed, l')
    ∧ (Some "MyGame" ∈ installed
       ↔ ∃ m, m ∈ ["/s/a.acf"; "/s/b.acf"; "/s/c.acf"]
              ∧ install_dir_of fs m = Some "MyGame").
Proof.
  intros fs.
  destruct (installed_set_exact fs ["/s/a.acf"; "/s/b.acf"; "/s/c.acf"]
              ["/s/b.acf"; "/s/a.acf"; "/s/c.acf"] [] []
              ltac:(repeat constructor; eexists; reflexivity)
              ltac:(apply perm_swap))
    as (installed & l & l' & H1 & H2 & H3).
  exists installed, l, l'. split; [done|]. split; [done|]. apply H3.
Defined.

(** ** The entry point *)

Section Main.
Implicit Types (fs : filesystem).

Lemma lstrip_all_space (w : string) :
  all_space w = true → lstrip w = EmptyString.
Proof.
  induction w as [|c w IH]; [done|]. cbn [all_space lstrip].
  intros [-> Hw]%andb_true_iff. by apply IH.
Qed.

Lemma rstrip_all_space (w : string) :
  all_space w = true → rstrip w = EmptyString.
Proof.
  induction w as [|c w IH]; [done|]. cbn [all_space rstrip].
  intros [-> Hw]%andb_true_iff. by rewrite IH.
Qed.

Lemma lstrip_padding (w s : string) :
  all_space w = true → lstrip (w +:+ s) = lstrip s.
Proof.
  induction w as [|c w IH]; [done|]. cbn [all_space].
  intros [Hc Hw]%andb_true_iff. rewrite app_cons. cbn [lstrip].
  rewrite Hc. by apply IH.
Qed.

Lemma rstrip_padding (s w : string) :
  all_space w = true → rstrip (s +:+ w) = rstrip s.
Proof.
  intros Hw. induction s as [|c s IH].
  - rewrite app_empty. by apply rstrip_all_space.
  - rewrite app_cons. cbn [rstrip]. by rewrite IH.
Qed.

Lemma strip_padding (before s after : string) :
  all_space before = true → all_space after = true →
  strip (before +:+ s +:+ after) = strip s.
Proof.
  intros Hb Ha. unfold strip. rewrite lstrip_padding by done.
  induction s as [|c s IH].
  - rewrite app_empty. by rewrite lstrip_all_space.
  - rewrite app_cons. cbn [lstrip]. destruct (is_space c); [done|].
    rewrite <- app_cons. by apply rstrip_padding.
Qed.

Lemma main_unfold fs steam_apps_directory log :
  main fs steam_apps_directory log
  = match find_all_unassociated_steam_game_directories fs
            (strip steam_apps_directory) log with
    | (Return result, log') =>
        (Return
           (if length result =? 0
            then ["No non-associated installed directories detected"]
            else "Found the following directories not associated with an active install manifest:"
                 :: map (λ directory, String "009" ("'" +:+ directory +:+ "'"))
                      result),
         log')
    | (Raise e, log') => (Raise e, log')
    end.
Proof.
  unfold main. rewrite bind_unfold.
  destruct (find_all_unassociated_steam_game_directories _ _ _)
    as [[result|e] l]; [|done].
  by destruct (length result =? 0).
Qed.
End Main.

(** X17. What the entry point prints: the line that nothing was found
    exactly when every game folder has its base name declared by a
    manifest; otherwise a heading and then one line for each path of the
    report, in the order of the report. It never prints nothing. *)
Theorem main_prints_nothing_found_iff
    (fs : filesystem) (steam_apps_directory : string)
    (log log' : list record) (printed : list string)
    (Hret : main fs steam_apps_directory log = (Return printed, log')) :
  (printed = ["No non-associated installed directories detected"]
   ↔ ∀ x, x ∈ game_folders_of fs (strip steam_apps_directory) →
          ∃ m, m ∈ manifests_of fs (strip steam_apps_directory)
               ∧ install_dir_of fs m = Some (basename x))
  ∧ (printed ≠ ["No non-associated installed directories detected"] →
     ∃ result,
       find_all_unassociated_steam_game_directories fs
         (strip steam_apps_directory) log
       = (Return result, log')
       ∧ result ≠ []
       ∧ printed
         = "Found the following directories not associated with an active install manifest:"
           :: map (λ directory, String "009" ("'" +:+ directory +:+ "'"))
                result)
  ∧ printed ≠ [].
Proof.
  rewrite main_unfold in Hret.
  destruct (find_all_unassociated_steam_game_directories _ _ _)
    as [[result|e] l] eqn:Hscan; [|done].
  injection Hret as <- <-.
  pose proof (find_all_empty_iff _ _ _ _ _ Hscan) as Hempty.
  destruct result as [|p result]; cbn [length Nat.eqb].
  - split; [|split; [done|done]].
    split; [intros _; by apply Hempty|done].
  - split; [|split; [|done]].
    + split; [by destruct result|].
      intros Hall. by apply Hempty in Hall.
    + intros _. by exists (p :: result).
Qed.

Lemma main_prints_nothing_found_iff_witness :
  ∃ result,
    find_all_unassociated_steam_game_directories example_fs
      (strip (" /s" +:+ str1 nl)) []
    = (Return result, (main example_fs (" /s" +:+ str1 nl) []).2)
    ∧ result ≠ []
    ∧ [ "Found the following directories not associated with an active install manifest:";
        String "009" "'/s/common/Old'" ]
      = "Found the following directories not associated with an active install manifest:"
        :: map (λ directory, String "009" ("'" +:+ directory +:+ "'")) result.
Proof.
  refine (proj1 (proj2 (main_prints_nothing_found_iff example_fs
                          (" /s" +:+ str1 nl) []
                          (main example_fs (" /s" +:+ str1 nl) []).2
                          _ _)) _).
  - by vm_compute.
  - discriminate.
Defined.

(** X18. White space around the directory given to the entry point is of
    no account: with any white space before and after it the entry point
    prints, logs and raises what it does without. *)
Theorem main_ignores_padding
    (fs : filesystem) (before steam_apps_directory after : string)
    (log : list record)
    (Hbefore : all_space before = true) (Hafter : all_space after = true) :
  main fs (before +:+ steam_apps_directory +:+ after) log
  = main fs steam_apps_directory log.
Proof. unfold main. by rewrite strip_padding. Qed.

Lemma main_ignores_padding_witness :
  main example_fs (" " +:+ "/s" +:+ str1 nl) []
  = main example_fs "/s" [].
Proof.
  refine (main_ignores_padding example_fs " " "/s" (str1 nl) [] _ _);
    reflexivity.
Defined.
